(** * Uploadly: the upload panel and the session gate

    A shallow embedding of the two React components of the repository:
    - [ImageUpload] (the upload panel): [uploadImage], [handleDrop],
      [handleFileInput], [removeImage] and the three [useState] cells
      [isDragging], [uploading], [uploadedImages];
    - [Index] (the session gate): [checkUser], the auth listener,
      [handleSignOut] and what the page renders.

    Every [async] function is cut at its single [await]: the part that runs
    synchronously when the function is called, and the part that runs when
    the awaited promise settles.  Between the two any other event may be
    processed, which is how the JavaScript event loop interleaves several
    uploads and deletes. *)

From Stdlib Require Import List String Ascii ZArith Bool Arith Lia.
From Stdlib Require Import DecimalString DecimalPos DecimalZ Permutation.
Import ListNotations.

Local Open Scope string_scope.
Local Open Scope list_scope.

(** ** JavaScript values shared by the two components *)

(** An [Error] object: only its [message] is ever read. *)
Record JsError : Type := mkError { message : string }.

(** How a promise settles. *)
Inductive Settled (A : Type) : Type :=
| Fulfilled (a : A)
| Rejected (e : JsError).
Arguments Fulfilled {A} a.
Arguments Rejected {A} e.

(** The [{ data, error }] object the supabase client resolves with; the
    code destructures [error] only.  [None] is JavaScript's [null]. *)
Record Response : Type := mkResponse { error : option JsError }.

Definition ok : Settled Response := Fulfilled (mkResponse None).
Definition failed (e : JsError) : Settled Response := Fulfilled (mkResponse (Some e)).

(** The argument of [toast({ title, description, variant })]; [variant] is
    [None] where the property is left out. *)
Inductive ToastVariant : Type := Default | Destructive.

Record Toast : Type := mkToast {
  title : string;
  description : string;
  variant : option ToastVariant
}.

(** How a piece of JavaScript completes: normally with a value, or
    abruptly with a thrown error. *)
Inductive Completion (A : Type) : Type :=
| Normal (a : A)
| Throw (e : JsError).
Arguments Normal {A} a.
Arguments Throw {A} e.

(** ** A state monad with exceptions

    [S] is the store the code mutates.  A thrown error keeps the store as
    it is at the point of the throw. *)
Definition M (S A : Type) : Type := S -> Completion A * S.

Definition ret {S A} (a : A) : M S A := fun s => (Normal a, s).

Definition bind {S A B} (c : M S A) (k : A -> M S B) : M S B :=
  fun s =>
    match c s with
    | (Normal a, s1) => k a s1
    | (Throw e, s1) => (Throw e, s1)
    end.

Definition throw {S A} (e : JsError) : M S A := fun s => (Throw e, s).

Definition modify {S} (f : S -> S) : M S unit := fun s => (Normal tt, f s).

(** [try { body } catch (e) { handler e } finally { fin }] *)
Definition try_catch_finally {S A}
    (body : M S A) (handler : JsError -> M S A) (fin : M S unit) : M S A :=
  fun s =>
    let (c1, s1) := body s in
    let (c2, s2) := match c1 with
                    | Normal a => (Normal a, s1)
                    | Throw e => handler e s1
                    end in
    let (c3, s3) := fin s2 in
    match c3 with
    | Normal _ => (c2, s3)
    | Throw e => (Throw e, s3)
    end.

(** [try { body } catch (e) { handler e }] *)
Definition try_catch {S A} (body : M S A) (handler : JsError -> M S A) : M S A :=
  try_catch_finally body handler (ret tt).

(** The value of [await p] once [p] has settled with [r]. *)
Definition await {S A} (r : Settled A) : M S A :=
  match r with
  | Fulfilled a => ret a
  | Rejected e => throw e
  end.

Declare Scope js_scope.
Delimit Scope js_scope with js.
Notation "x <- c ;; k" := (bind c (fun x => k))
  (at level 61, c at next level, right associativity) : js_scope.
Notation "c ;; k" := (bind c (fun _ => k))
  (at level 61, right associativity) : js_scope.

(** [String.prototype.startsWith] *)
Definition startsWith (s searchString : string) : bool := String.prefix searchString s.

(** The template literal [`${n}`] for an integer [n]: its decimal
    numeral, with a leading minus sign when negative.  ([Date.now()] is an
    integer of magnitude at most 8.64e15, far below 1e21 where JavaScript
    switches to exponent notation.) *)
Definition string_of_Z (n : Z) : string := NilZero.string_of_int (Z.to_int n).

(** The characters ["0"] to ["9"]. *)
Definition is_digit (c : ascii) : bool :=
  ((48 <=? nat_of_ascii c) && (nat_of_ascii c <=? 57))%nat.

Fixpoint all_digits (s : string) : bool :=
  match s with
  | EmptyString => true
  | String c rest => is_digit c && all_digits rest
  end.

(** ** The upload panel: [ImageUpload] *)
Module ImageUpload.

(** The browser's [File]: the code reads [file.type] and [file.name]; the
    contents travel to the storage provider untouched. *)
Record File : Type := mkFile {
  file_name : string;
  file_type : string
}.

(** [interface UploadedImage] *)
Record UploadedImage : Type := mkImage {
  id : string;
  url : string;
  name : string
}.

(** A call made on [supabase.storage.from(bucket)]. *)
Inductive StorageCall : Type :=
| upload (bucket path : string) (file : File)
| remove (bucket : string) (paths : list string).

(** What the component reads from outside itself: the clock, as the
    sequence of values successive calls of [Date.now()] return, and the
    storage client's synchronous [getPublicUrl] (bucket, then path). *)
Record Env : Type := mkEnv {
  Date_now : nat -> Z;
  getPublicUrl : string -> string -> string
}.

(** The store: the three [useState] cells, and what the component has
    done to the outside so far (most recent first): notifications shown,
    [console.error] lines, calls issued to the storage provider, and the
    number of times the clock was read. *)
Record State : Type := mkState {
  isDragging : bool;
  uploading : bool;
  uploadedImages : list UploadedImage;
  toasts : list Toast;
  console : list (string * JsError);
  requests : list StorageCall;
  ticks : nat
}.

Definition initial : State := mkState false false [] [] [] [] 0.

Definition setIsDragging (b : bool) : M State unit :=
  modify (fun s => mkState b (uploading s) (uploadedImages s) (toasts s)
                           (console s) (requests s) (ticks s)).

Definition setUploading (b : bool) : M State unit :=
  modify (fun s => mkState (isDragging s) b (uploadedImages s) (toasts s)
                           (console s) (requests s) (ticks s)).

(** [setUploadedImages(prev => f prev)]: the functional form, applied to
    the list as it is when the update runs. *)
Definition setUploadedImages (f : list UploadedImage -> list UploadedImage) : M State unit :=
  modify (fun s => mkState (isDragging s) (uploading s) (f (uploadedImages s)) (toasts s)
                           (console s) (requests s) (ticks s)).

Definition toast (t : Toast) : M State unit :=
  modify (fun s => mkState (isDragging s) (uploading s) (uploadedImages s) (t :: toasts s)
                           (console s) (requests s) (ticks s)).

Definition console_error (label : string) (e : JsError) : M State unit :=
  modify (fun s => mkState (isDragging s) (uploading s) (uploadedImages s) (toasts s)
                           ((label, e) :: console s) (requests s) (ticks s)).

(** Issuing a request to the storage provider. *)
Definition storage (c : StorageCall) : M State unit :=
  modify (fun s => mkState (isDragging s) (uploading s) (uploadedImages s) (toasts s)
                           (console s) (c :: requests s) (ticks s)).

(** [Date.now()] *)
Definition now (env : Env) : M State Z :=
  fun s => (Normal (Date_now env (ticks s)),
            mkState (isDragging s) (uploading s) (uploadedImages s) (toasts s)
                    (console s) (requests s) (S (ticks s))).

(** The notifications of the component. *)
Definition invalid_file_type : Toast :=
  mkToast "Invalid file type" "Please upload an image file" (Some Destructive).
Definition upload_successful : Toast :=
  mkToast "Upload successful!" "Your image has been uploaded" None.
Definition upload_failed : Toast :=
  mkToast "Upload failed" "There was an error uploading your image" (Some Destructive).
Definition image_deleted : Toast :=
  mkToast "Image deleted" "Image has been removed" None.
Definition delete_failed : Toast :=
  mkToast "Delete failed" "There was an error deleting the image" (Some Destructive).

(** [`${Date.now()}-${file.name}`] *)
Definition fileName_of (timestamp : Z) (original : string) : string :=
  string_of_Z timestamp ++ "-" ++ original.

(** An [async] function suspended at its [await], with the variables the
    rest of its body captures. *)
Inductive Pending : Type :=
| AwaitUpload (fileName : string) (file : File)
| AwaitRemove (imageId : string).

Local Open Scope js_scope.

(** [uploadImage], from the call to the [await]: [None] when the function
    returned, [Some p] when it is suspended on the storage call. *)
Definition uploadImage (env : Env) (file : File) : M State (option Pending) :=
  if negb (startsWith (file_type file) "image/") then
    toast invalid_file_type ;;
    ret None
  else
    setUploading true ;;
    timestamp <- now env ;;
    let fileName := fileName_of timestamp (file_name file) in
    storage (upload "images" fileName file) ;;
    ret (Some (AwaitUpload fileName file)).

(** [uploadImage], from the [await] to the end, once the storage call has
    settled with [r]. *)
Definition uploadImage_resume (env : Env) (fileName : string) (file : File)
    (r : Settled Response) : M State unit :=
  try_catch_finally
    (resp <- await r ;;
     match error resp with
     | Some e => throw e
     | None =>
         let publicUrl := getPublicUrl env "images" fileName in
         let newImage := mkImage fileName publicUrl (file_name file) in
         setUploadedImages (fun prev => newImage :: prev) ;;
         toast upload_successful
     end)
    (fun e =>
       console_error "Upload error:" e ;;
       toast upload_failed)
    (setUploading false).

(** [img => img.id !== imageId] *)
Definition other_than (imageId : string) (img : UploadedImage) : bool :=
  negb (String.eqb (id img) imageId).

(** [removeImage], from the call to the [await]. *)
Definition removeImage (imageId : string) : M State (option Pending) :=
  storage (remove "images" [imageId]) ;;
  ret (Some (AwaitRemove imageId)).

(** [removeImage], from the [await] to the end. *)
Definition removeImage_resume (imageId : string) (r : Settled Response) : M State unit :=
  try_catch
    (resp <- await r ;;
     match error resp with
     | Some e => throw e
     | None =>
         setUploadedImages (fun prev => filter (other_than imageId) prev) ;;
         toast image_deleted
     end)
    (fun e =>
       console_error "Delete error:" e ;;
       toast delete_failed).

(** Resuming a suspended function. *)
Definition resume (env : Env) (p : Pending) (r : Settled Response) : M State unit :=
  match p with
  | AwaitUpload fileName file => uploadImage_resume env fileName file r
  | AwaitRemove imageId => removeImage_resume imageId r
  end.

Local Close Scope js_scope.

(** *** The component in the event loop

    [inflight] holds the suspended calls of [uploadImage] and
    [removeImage], oldest first; [settled] records every storage call that
    has settled together with the provider's answer, most recent first;
    [unhandled] collects the errors of rejected promises, which nobody
    awaits ([forEach] and [onClick] drop them). *)
Record Sys : Type := mkSys {
  ui : State;
  inflight : list Pending;
  settled : list (Pending * Settled Response);
  unhandled : list JsError
}.

Definition mounted : Sys := mkSys initial [] [] [].

(** Calling an [async] function: its synchronous part runs at once. *)
Definition call (c : M State (option Pending)) (sys : Sys) : Sys :=
  match c (ui sys) with
  | (Normal (Some p), s) => mkSys s (inflight sys ++ [p]) (settled sys) (unhandled sys)
  | (Normal None, s) => mkSys s (inflight sys) (settled sys) (unhandled sys)
  | (Throw e, s) => mkSys s (inflight sys) (settled sys) (e :: unhandled sys)
  end.

(** A synchronous handler that cannot suspend. *)
Definition exec (c : M State unit) (sys : Sys) : Sys :=
  match c (ui sys) with
  | (Normal _, s) => mkSys s (inflight sys) (settled sys) (unhandled sys)
  | (Throw e, s) => mkSys s (inflight sys) (settled sys) (e :: unhandled sys)
  end.

(** [files.forEach(uploadImage)] *)
Definition forEach_uploadImage (env : Env) (files : list File) (sys : Sys) : Sys :=
  fold_left (fun acc file => call (uploadImage env file) acc) files sys.

Definition handleDrop (env : Env) (files : list File) (sys : Sys) : Sys :=
  forEach_uploadImage env files (exec (setIsDragging false) sys).

Definition handleDragOver (sys : Sys) : Sys := exec (setIsDragging true) sys.

Definition handleDragLeave (sys : Sys) : Sys := exec (setIsDragging false) sys.

Definition handleFileInput (env : Env) (files : list File) (sys : Sys) : Sys :=
  forEach_uploadImage env files sys.

Definition drop_nth {A} (n : nat) (l : list A) : list A := firstn n l ++ skipn (S n) l.

(** The [n]-th suspended call gets its answer [r] and runs to its end. *)
Definition settle (env : Env) (n : nat) (r : Settled Response) (sys : Sys) : Sys :=
  match nth_error (inflight sys) n with
  | None => sys
  | Some p =>
      match resume env p r (ui sys) with
      | (Normal _, s) =>
          mkSys s (drop_nth n (inflight sys)) ((p, r) :: settled sys) (unhandled sys)
      | (Throw e, s) =>
          mkSys s (drop_nth n (inflight sys)) ((p, r) :: settled sys) (e :: unhandled sys)
      end
  end.

(** What can happen to the mounted component.  Events are accepted
    whatever the [uploading] flag says, so the runs below include all
    those the rendered page allows. *)
Inductive Event : Type :=
| Drop (files : list File)
| DragOver
| DragLeave
| FileInput (files : list File)
| ClickRemove (imageId : string)
| Settles (n : nat) (r : Settled Response).

Definition step (env : Env) (sys : Sys) (ev : Event) : Sys :=
  match ev with
  | Drop files => handleDrop env files sys
  | DragOver => handleDragOver sys
  | DragLeave => handleDragLeave sys
  | FileInput files => handleFileInput env files sys
  | ClickRemove imageId => call (removeImage imageId) sys
  | Settles n r => settle env n r sys
  end.

Definition run (env : Env) (evs : list Event) (sys : Sys) : Sys :=
  fold_left (step env) evs sys.

(** *** Vocabulary of the properties *)

(** The provider reported success: the promise fulfilled with a null
    [error]. *)
Definition succeeded (r : Settled Response) : bool :=
  match r with
  | Fulfilled resp => match error resp with None => true | Some _ => false end
  | Rejected _ => false
  end.

(** The gallery entry a suspended upload adds when it succeeds. *)
Definition entry_of (env : Env) (fileName : string) (file : File) : UploadedImage :=
  mkImage fileName (getPublicUrl env "images" fileName) (file_name file).

Definition is_upload (p : Pending) : bool :=
  match p with AwaitUpload _ _ => true | AwaitRemove _ => false end.

(** At least one upload has started its storage call and not completed. *)
Definition upload_outstanding (sys : Sys) : bool := existsb is_upload (inflight sys).

(** The keys handed to the provider's [upload], most recent first. *)
Fixpoint uploaded_keys (calls : list StorageCall) : list string :=
  match calls with
  | [] => []
  | upload _ path _ :: rest => path :: uploaded_keys rest
  | remove _ _ :: rest => uploaded_keys rest
  end.

Definition issued_keys (sys : Sys) : list string := uploaded_keys (requests (ui sys)).

(** The keys of the uploads still suspended. *)
Definition key_list (p : Pending) : list string :=
  match p with
  | AwaitUpload fileName _ => [fileName]
  | AwaitRemove _ => []
  end.

Definition pending_keys (sys : Sys) : list string := flat_map key_list (inflight sys).

(** The ids shown in the gallery, front first. *)
Definition gallery (sys : Sys) : list UploadedImage := uploadedImages (ui sys).

Definition gallery_ids (sys : Sys) : list string := map id (gallery sys).

(** [img] is what is left of [prev] once every entry with id [imageId] is
    struck out, the others staying in place. *)
Inductive struck_out (imageId : string) : list UploadedImage -> list UploadedImage -> Prop :=
| struck_nil : struck_out imageId [] []
| struck_hit img prev next :
    id img = imageId -> struck_out imageId prev next ->
    struck_out imageId (img :: prev) next
| struck_keep img prev next :
    id img <> imageId -> struck_out imageId prev next ->
    struck_out imageId (img :: prev) (img :: next).

(** [img] was uploaded successfully and no delete of its key has
    succeeded since: the log (most recent first) splits at a successful
    upload of [img] with no successful delete of [id img] after it. *)
Definition live (env : Env) (img : UploadedImage)
    (log : list (Pending * Settled Response)) : Prop :=
  exists newer older fileName file r,
    log = newer ++ (AwaitUpload fileName file, r) :: older /\
    succeeded r = true /\
    img = entry_of env fileName file /\
    forall r', In (AwaitRemove (id img), r') newer -> succeeded r' = false.

(** A suspended upload carries a key built from a reading of the clock
    and the name of its file. *)
Definition keyed (env : Env) (p : Pending) : Prop :=
  match p with
  | AwaitUpload fileName file =>
      exists n, fileName = fileName_of (Date_now env n) (file_name file)
  | AwaitRemove _ => True
  end.

(** [s] ends with [suffix]. *)
Definition ends_with (s suffix : string) : Prop :=
  exists front, s = (front ++ suffix)%string.

(** The shape of a gallery entry. *)
Definition well_formed (env : Env) (img : UploadedImage) : Prop :=
  url img = getPublicUrl env "images" (id img) /\
  ends_with (id img) (name img) /\
  exists n, id img = fileName_of (Date_now env n) (name img).

(** *** Vocabulary of the event loop as a whole *)

(** [file.type.startsWith('image/')] *)
Definition is_image (file : File) : bool := startsWith (file_type file) "image/".

Definition images_in (files : list File) : nat := List.length (filter is_image files).

(** The storage call a suspended function is waiting for. *)
Definition request_of (p : Pending) : StorageCall :=
  match p with
  | AwaitUpload fileName file => upload "images" fileName file
  | AwaitRemove imageId => remove "images" [imageId]
  end.

(** What [files.forEach(uploadImage)] makes of a list of files, from
    [before] to [after]: the calls it suspends, oldest first, are
    [started]. *)
Definition each_file_handled (env : Env) (files : list File)
    (before after : Sys) (started : list Pending) : Prop :=
  inflight after = inflight before ++ started /\
  List.length started = images_in files /\
  (forall i file,
     nth_error (filter is_image files) i = Some file ->
     nth_error started i =
       Some (AwaitUpload (fileName_of (Date_now env (ticks (ui before) + i)) (file_name file))
                         file)) /\
  toasts (ui after) =
    repeat invalid_file_type (List.length files - images_in files) ++ toasts (ui before) /\
  uploading (ui after) = uploading (ui before) || existsb is_image files /\
  ticks (ui after) = ticks (ui before) + images_in files /\
  isDragging (ui after) = isDragging (ui before) /\
  gallery after = gallery before /\
  console (ui after) = console (ui before) /\
  settled after = settled before.

(** Files handed to the component, and delete buttons clicked, over a
    list of events. *)
Fixpoint files_given (evs : list Event) : nat :=
  match evs with
  | [] => 0
  | Drop files :: rest => List.length files + files_given rest
  | FileInput files :: rest => List.length files + files_given rest
  | _ :: rest => files_given rest
  end.

Fixpoint delete_clicks (evs : list Event) : nat :=
  match evs with
  | [] => 0
  | ClickRemove _ :: rest => S (delete_clicks rest)
  | _ :: rest => delete_clicks rest
  end.

(** The settled calls the provider did not report successful. *)
Definition failures (log : list (Pending * Settled Response)) : nat :=
  List.length (filter (fun answered => negb (succeeded (snd answered))) log).

(** The drag state the events alone determine: the last of drag-over,
    drag-leave and drop decides. *)
Definition dragging_after (evs : list Event) (dragging : bool) : bool :=
  fold_left (fun b ev =>
               match ev with
               | Drop _ => false
               | DragOver => true
               | DragLeave => false
               | _ => b
               end) evs dragging.

(** An event that does not make two uploads overlap: files are handed
    over only while no upload is outstanding, at most one image at a
    time. *)
Definition keeps_uploads_apart (sys : Sys) (ev : Event) : bool :=
  match ev with
  | Drop files | FileInput files =>
      Nat.eqb (images_in files) 0
      || (negb (upload_outstanding sys) && Nat.eqb (images_in files) 1)
  | _ => true
  end.

Fixpoint uploads_apart (env : Env) (evs : list Event) (sys : Sys) : bool :=
  match evs with
  | [] => true
  | ev :: rest => keeps_uploads_apart sys ev && uploads_apart env rest (step env sys ev)
  end.

(** The entries of the uploads the provider reported successful, in the
    order of the log (latest answer first). *)
Definition completed_uploads (env : Env)
    (log : list (Pending * Settled Response)) : list UploadedImage :=
  flat_map (fun answered =>
              match fst answered with
              | AwaitUpload fileName file =>
                  if succeeded (snd answered) then [entry_of env fileName file] else []
              | AwaitRemove _ => []
              end) log.

(** No delete has been reported successful. *)
Definition no_delete_succeeded (log : list (Pending * Settled Response)) : Prop :=
  forall imageId r, In (AwaitRemove imageId, r) log -> succeeded r = false.

(** *** Vocabulary of runs without key collisions *)

(** The gallery shows a card, with its delete button, for [imageId]. *)
Definition listed (sys : Sys) (imageId : string) : bool :=
  existsb (String.eqb imageId) (gallery_ids sys).

(** The delete clicks of [evs] are all on cards shown at the time. *)
Definition on_a_card (sys : Sys) (ev : Event) : bool :=
  match ev with
  | ClickRemove imageId => listed sys imageId
  | _ => true
  end.

Fixpoint clicks_on_cards (env : Env) (evs : list Event) (sys : Sys) : bool :=
  match evs with
  | [] => true
  | ev :: rest => on_a_card sys ev && clicks_on_cards env rest (step env sys ev)
  end.

(** A delete of [imageId] has been asked of the provider. *)
Definition delete_requested (sys : Sys) (imageId : string) : Prop :=
  In (AwaitRemove imageId) (inflight sys) \/
  exists r, In (AwaitRemove imageId, r) (settled sys).

(** What holds of the keys while they are pairwise distinct: ids and
    awaited keys are keys handed to the provider, counted with
    multiplicity; a key whose delete was requested is not awaited by any
    upload; no listed entry has a successful delete of its id in the
    log. *)
Definition keys_kept_apart (sys : Sys) : Prop :=
  (forall k,
     count_occ string_dec (gallery_ids sys) k + count_occ string_dec (pending_keys sys) k
     <= count_occ string_dec (issued_keys sys) k) /\
  (forall k, delete_requested sys k ->
             In k (issued_keys sys) /\ ~ In k (pending_keys sys)) /\
  (forall img r,
     In img (gallery sys) -> In (AwaitRemove (id img), r) (settled sys) ->
     succeeded r = false).

(** *** Sample data *)

Definition sample_env : Env :=
  mkEnv (fun _ => 1753785410000%Z)
        (fun bucket path =>
           ("https://project.supabase.co/storage/v1/object/public/"
              ++ bucket ++ "/" ++ path)%string).

Definition cat_png : File := mkFile "cat.png" "image/png".
Definition dog_jpg : File := mkFile "dog.jpg" "image/jpeg".
Definition owl_gif : File := mkFile "owl.gif" "image/gif".
Definition notes_txt : File := mkFile "notes.txt" "text/plain".

Definition cat_key : string := "1753785410000-cat.png".
Definition dog_key : string := "1753785410000-dog.jpg".

(** Two files dropped together, both uploads done. *)
Definition two_uploaded : Sys :=
  run sample_env [Drop [cat_png; dog_jpg]; Settles 0 ok; Settles 0 ok] mounted.

(** The same, and then the cat is deleted. *)
Definition sample_events : list Event :=
  [Drop [cat_png; dog_jpg]; Settles 0 ok; Settles 0 ok; ClickRemove cat_key; Settles 0 ok].

Definition cat_deleted : Sys := run sample_env sample_events mounted.

Definition dog_entry : UploadedImage := entry_of sample_env dog_key dog_jpg.

Definition not_found : JsError := mkError "Object not found".

(** The dog's upload completes before the cat's. *)
Definition dog_first : list Event :=
  [Drop [cat_png; dog_jpg]; Settles 1 ok; Settles 0 ok].

Definition owl_key : string := "1753785410000-owl.gif".

(** Two files of the same name in one drop: the first is uploaded and
    deleted before the second upload is answered. *)
Definition collision_events : list Event :=
  [Drop [cat_png; cat_png]; Settles 0 ok; ClickRemove cat_key; Settles 1 ok; Settles 0 ok].

(** One file after the other: the dog is dropped once the cat is done. *)
Definition one_by_one : list Event :=
  [Drop [cat_png]; Settles 0 ok; DragOver; Drop [notes_txt; dog_jpg]].

End ImageUpload.

(** ** The session gate: [Index] *)
Module Index.

(** [session.user], opaque to the page. *)
Record User : Type := mkUser { user_id : string }.

Record Session : Type := mkSession { session_user : User }.

Inductive AuthCall : Type := getSession | signOut.

(** The two [useState] cells, and what the page has done to the outside
    (most recent first). *)
Record State : Type := mkState {
  user : option User;
  loading : bool;
  toasts : list Toast;
  navigations : list string;
  auth_calls : list AuthCall
}.

Definition initial : State := mkState None true [] [] [].

Definition setUser (u : option User) : M State unit :=
  modify (fun s => mkState u (loading s) (toasts s) (navigations s) (auth_calls s)).

Definition setLoading (b : bool) : M State unit :=
  modify (fun s => mkState (user s) b (toasts s) (navigations s) (auth_calls s)).

Definition toast (t : Toast) : M State unit :=
  modify (fun s => mkState (user s) (loading s) (t :: toasts s) (navigations s) (auth_calls s)).

Definition navigate (route : string) : M State unit :=
  modify (fun s => mkState (user s) (loading s) (toasts s) (route :: navigations s) (auth_calls s)).

Definition auth (c : AuthCall) : M State unit :=
  modify (fun s => mkState (user s) (loading s) (toasts s) (navigations s) (c :: auth_calls s)).

Definition signed_out : Toast :=
  mkToast "Signed out successfully" "You've been logged out." None.

Definition error_signing_out (e : JsError) : Toast :=
  mkToast "Error signing out" (message e) (Some Destructive).

Local Open Scope js_scope.

(** [session?.user ?? null] *)
Definition user_of (session : option Session) : option User :=
  option_map session_user session.

(** [checkUser], up to the [await]. *)
Definition checkUser : M State unit := auth getSession.

(** [checkUser], from the [await] on: [r] is how [getSession()] settled. *)
Definition checkUser_resume (r : Settled (option Session)) : M State unit :=
  session <- await r ;;
  setUser (user_of session) ;;
  match session with
  | None => navigate "/auth"
  | Some _ => ret tt
  end ;;
  setLoading false.

(** The listener given to [onAuthStateChange]. *)
Definition onAuthStateChange (session : option Session) : M State unit :=
  setUser (user_of session) ;;
  match session with
  | None => navigate "/auth"
  | Some _ => ret tt
  end.

(** [handleSignOut], up to the [await]. *)
Definition handleSignOut : M State unit := auth signOut.

(** [handleSignOut], from the [await] on: [r] is how [signOut()]
    settled.  The [await] is not inside a [try]. *)
Definition handleSignOut_resume (r : Settled Response) : M State unit :=
  resp <- await r ;;
  match error resp with
  | Some e => toast (error_signing_out e)
  | None => toast signed_out
  end.

Local Close Scope js_scope.

(** What the page shows. *)
Inductive View : Type :=
| LoadingScreen
| Blank
| UploadPanel.

Definition render (s : State) : View :=
  if loading s then LoadingScreen
  else match user s with
       | None => Blank
       | Some _ => UploadPanel
       end.

(** *** The page in the event loop *)

(** Mounting runs the effect: [checkUser()] is called. *)
Definition mounted : State := snd (checkUser initial).

(** What can happen to the mounted page: [getSession()] settles, the auth
    listener fires, the sign-out button is clicked, [signOut()] settles.
    A handler that throws leaves the state as it is at the throw. *)
Inductive Event : Type :=
| SessionChecked (r : Settled (option Session))
| AuthStateChanged (session : option Session)
| SignOutClicked
| SignOutSettled (r : Settled Response).

Definition step (s : State) (ev : Event) : State :=
  match ev with
  | SessionChecked r => snd (checkUser_resume r s)
  | AuthStateChanged session => snd (onAuthStateChange session s)
  | SignOutClicked => snd (handleSignOut s)
  | SignOutSettled r => snd (handleSignOut_resume r s)
  end.

Definition run (evs : list Event) (s : State) : State := fold_left step evs s.

(** The session an event lets the page see, if any. *)
Definition observed (ev : Event) : option (option Session) :=
  match ev with
  | SessionChecked (Fulfilled session) => Some session
  | AuthStateChanged session => Some session
  | _ => None
  end.

(** The session seen last, [seen] being what was seen before. *)
Definition latest (evs : list Event) (seen : option (option Session)) :
    option (option Session) :=
  fold_left (fun acc ev => match observed ev with Some o => Some o | None => acc end)
            evs seen.

(** [getSession()] has answered. *)
Definition checked (evs : list Event) : bool :=
  existsb (fun ev => match ev with SessionChecked (Fulfilled _) => true | _ => false end) evs.

(** The times the page saw that there is no session. *)
Definition absences (evs : list Event) : nat :=
  List.length (filter (fun ev => match observed ev with Some None => true | _ => false end) evs).

(** The sign-out calls that were answered. *)
Definition sign_outs_answered (evs : list Event) : nat :=
  List.length
    (filter (fun ev => match ev with SignOutSettled (Fulfilled _) => true | _ => false end)
            evs).

(** The clicks on the sign-out button. *)
Definition sign_out_clicks (evs : list Event) : nat :=
  List.length (filter (fun ev => match ev with SignOutClicked => true | _ => false end) evs).

(** The user the page holds once it has seen [seen]. *)
Definition user_seen (seen : option (option Session)) : option User :=
  match seen with
  | Some session => user_of session
  | None => None
  end.

Definition alice : Session := mkSession (mkUser "alice").

Definition offline : JsError := mkError "Failed to fetch".

End Index.

(** ** Properties of the upload panel *)
Module ImageUploadSpec.
Import ImageUpload.

(** *** One call at a time *)

Section Calls.

Variable env : Env.

Lemma filter_other_than_in imageId img l :
  In img (filter (other_than imageId) l) <-> In img l /\ id img <> imageId.
Proof.
  rewrite filter_In. unfold other_than.
  destruct (String.eqb_spec (id img) imageId) as [E | E]; simpl; intuition congruence.
Qed.

Lemma filter_other_than_absent imageId l :
  (forall img, In img l -> id img <> imageId) ->
  filter (other_than imageId) l = l.
Proof.
  induction l as [| img l IH]; intros Habs; simpl; [reflexivity |].
  unfold other_than at 1.
  destruct (String.eqb_spec (id img) imageId) as [E | E]; simpl.
  - exfalso. apply (Habs img); [now left | exact E].
  - f_equal. apply IH. intros img' Hin. apply Habs. now right.
Qed.

Lemma filter_other_than_struck_out imageId l :
  struck_out imageId l (filter (other_than imageId) l).
Proof.
  induction l as [| img l IH]; simpl; [constructor |].
  unfold other_than at 1.
  destruct (String.eqb_spec (id img) imageId) as [E | E]; simpl.
  - now apply struck_hit.
  - now apply struck_keep.
Qed.

Lemma succeeded_ok r : succeeded r = true -> r = ok.
Proof.
  destruct r as [[[e |]] | e]; simpl; intros H; try discriminate H; reflexivity.
Qed.

Lemma not_succeeded r :
  succeeded r = false -> exists e, r = failed e \/ r = Rejected e.
Proof.
  destruct r as [[[e |]] | e]; simpl; intros H; try discriminate H;
    exists e; [left | right]; reflexivity.
Qed.

(** C1. A file whose MIME type does not start with "image/" makes
    [uploadImage] return at once: it completes normally (nothing thrown,
    nothing suspended), no call reaches the storage provider, the
    invalid-file-type notification is shown, and the gallery list (like
    the [uploading] flag and the clock) is as before. *)
Theorem uploadImage_rejects_non_image (file : File) (s : State) :
  startsWith (file_type file) "image/" = false ->
  exists s',
    uploadImage env file s = (Normal None, s') /\
    requests s' = requests s /\
    toasts s' = invalid_file_type :: toasts s /\
    uploadedImages s' = uploadedImages s /\
    uploading s' = uploading s /\
    ticks s' = ticks s.
Proof.
  intros Htype. unfold uploadImage. rewrite Htype. simpl.
  eexists. split; [reflexivity |]. simpl. repeat split.
Qed.


(** C3. When the storage call of a delete succeeds, no entry with the
    given id is left in the gallery list, an entry with another id is in
    the list after the call exactly when it was before, and the list after
    is the list before with the entries of that id struck out, the others
    keeping their places. *)
Theorem successful_delete_removes_matching_entry (imageId : string)
    (r : Settled Response) (s : State) :
  succeeded r = true ->
  exists s',
    removeImage_resume imageId r s = (Normal tt, s') /\
    (forall img, In img (uploadedImages s') -> id img <> imageId) /\
    (forall img, id img <> imageId ->
       (In img (uploadedImages s') <-> In img (uploadedImages s))) /\
    struck_out imageId (uploadedImages s) (uploadedImages s') /\
    toasts s' = image_deleted :: toasts s.
Proof.
  intros Hok. apply succeeded_ok in Hok. subst r.
  eexists. split; [reflexivity |]. simpl. repeat split.
  - intros img Hin. now apply filter_other_than_in in Hin.
  - intros Hin. now apply filter_other_than_in in Hin.
  - intros Hin. apply filter_other_than_in. now split.
  - apply filter_other_than_struck_out.
Qed.

(** C4. If no entry of the gallery list has the given id (it was removed
    before), calling [removeImage] on it again throws nothing and leaves
    the list as it is, whatever the provider answers: success, an error
    such as not-found, or a rejected promise. *)
Theorem removeImage_again_is_noop (imageId : string) (s : State) :
  (forall img, In img (uploadedImages s) -> id img <> imageId) ->
  (exists s1,
     removeImage imageId s = (Normal (Some (AwaitRemove imageId)), s1) /\
     uploadedImages s1 = uploadedImages s) /\
  (forall r, exists s',
     removeImage_resume imageId r s = (Normal tt, s') /\
     uploadedImages s' = uploadedImages s).
Proof.
  intros Habsent. split.
  - eexists. split; reflexivity.
  - intros [[[e |]] | e]; eexists; (split; [reflexivity |]); simpl;
      try reflexivity.
    now apply filter_other_than_absent.
Qed.

(** C5. When the storage call of a delete fails (the provider answers
    with an error, or the promise is rejected), [removeImage] completes
    normally, shows the delete-failed notification, and the gallery
    list is exactly the list before: issuing the call leaves it alone,
    and so does the [catch] branch that runs on the answer, in whatever
    state [s2] the component then is. *)
Theorem failed_delete_leaves_gallery (imageId : string)
    (r : Settled Response) (s : State) :
  succeeded r = false ->
  exists s1,
    removeImage imageId s = (Normal (Some (AwaitRemove imageId)), s1) /\
    uploadedImages s1 = uploadedImages s /\
    toasts s1 = toasts s /\
    forall s2, exists s3,
      removeImage_resume imageId r s2 = (Normal tt, s3) /\
      toasts s3 = delete_failed :: toasts s2 /\
      uploadedImages s3 = uploadedImages s2.
Proof.
  intros Hfail. eexists. split; [reflexivity |]. simpl. repeat split.
  intros s2. apply not_succeeded in Hfail. destruct Hfail as [e [-> | ->]];
    eexists; (split; [reflexivity |]); simpl; split; reflexivity.
Qed.

End Calls.

(** *** Storage keys *)

Section Keys.

Local Open Scope string_scope.

Lemma all_digits_string_of_uint d : all_digits (NilEmpty.string_of_uint d) = true.
Proof. induction d; simpl; auto. Qed.

Lemma all_digits_numeral d : all_digits (NilZero.string_of_uint d) = true.
Proof. destruct d; try reflexivity; apply (all_digits_string_of_uint (_ d)). Qed.

Lemma numeral_nonempty d : NilZero.string_of_uint d <> "".
Proof. destruct d; discriminate. Qed.

(** A run of digits followed by a dash is read back in one way only. *)
Lemma digits_then_dash a : forall b x y,
  all_digits a = true -> all_digits b = true ->
  a ++ String "-" x = b ++ String "-" y -> a = b /\ x = y.
Proof.
  induction a as [| c a IH]; intros [| c' b] x y Ha Hb Heq; simpl in *.
  - injection Heq as ->. now split.
  - injection Heq as <- _. now vm_compute in Hb.
  - injection Heq as -> _. now vm_compute in Ha.
  - injection Heq as -> Heq.
    apply andb_true_iff in Ha, Hb.
    destruct (IH b x y) as [-> ->]; tauto.
Qed.

Lemma numeral_inj d d' :
  d <> Decimal.Nil -> d' <> Decimal.Nil ->
  NilZero.string_of_uint d = NilZero.string_of_uint d' -> d = d'.
Proof.
  intros Hd Hd' Heq.
  assert (H : Some d = Some d').
  { rewrite <- (NilZero.usu d Hd), <- (NilZero.usu d' Hd'). now rewrite Heq. }
  now injection H.
Qed.

Lemma to_int_cases z :
  exists d, d <> Decimal.Nil /\
    (Z.to_int z = Decimal.Pos d \/ Z.to_int z = Decimal.Neg d).
Proof.
  destruct z as [| p | p]; simpl.
  - exists Decimal.zero. split; [discriminate | now left].
  - exists (Pos.to_uint p). split; [apply Unsigned.to_uint_nonnil | now left].
  - exists (Pos.to_uint p). split; [apply Unsigned.to_uint_nonnil | now right].
Qed.

(** The key determines the timestamp and the file name it was built
    from. *)
Lemma fileName_of_inj t1 n1 t2 n2 :
  fileName_of t1 n1 = fileName_of t2 n2 -> t1 = t2 /\ n1 = n2.
Proof.
  unfold fileName_of, string_of_Z. intros Heq.
  destruct (to_int_cases t1) as [d1 [Hd1 E1]].
  destruct (to_int_cases t2) as [d2 [Hd2 E2]].
  assert (Hgoal : Z.to_int t1 = Z.to_int t2 /\ n1 = n2).
  { destruct E1 as [E1 | E1], E2 as [E2 | E2]; rewrite E1, E2 in *; simpl in Heq.
    - apply digits_then_dash in Heq; try apply all_digits_numeral.
      destruct Heq as [Hd ->]. apply numeral_inj in Hd; subst; auto.
    - exfalso. pose proof (all_digits_numeral d1) as Hdig.
      pose proof (numeral_nonempty d1) as Hne.
      destruct (NilZero.string_of_uint d1); [congruence |].
      simpl in Heq. injection Heq as -> _. now vm_compute in Hdig.
    - exfalso. pose proof (all_digits_numeral d2) as Hdig.
      pose proof (numeral_nonempty d2) as Hne.
      destruct (NilZero.string_of_uint d2); [congruence |].
      simpl in Heq. injection Heq as <- _. now vm_compute in Hdig.
    - injection Heq as Heq.
      apply digits_then_dash in Heq; try apply all_digits_numeral.
      destruct Heq as [Hd ->]. apply numeral_inj in Hd; subst; auto. }
  destruct Hgoal as [Hz ->]. split; [| reflexivity].
  now apply DecimalZ.to_int_inj.
Qed.

Lemma append_assoc (a b c : string) : (a ++ b) ++ c = a ++ (b ++ c).
Proof. induction a as [| x a IH]; simpl; [reflexivity | now rewrite IH]. Qed.

Lemma fileName_of_ends_with t original : ends_with (fileName_of t original) original.
Proof.
  exists (string_of_Z t ++ "-"). unfold fileName_of. now rewrite append_assoc.
Qed.

End Keys.

(** *** The component in the event loop *)

Section EventLoop.

Variable env : Env.

(** Neither async function ever throws: every path out of the [try] is
    caught. *)
Lemma uploadImage_normal file s : exists res s', uploadImage env file s = (Normal res, s').
Proof.
  unfold uploadImage. destruct (startsWith (file_type file) "image/"); simpl;
    do 2 eexists; reflexivity.
Qed.

Lemma resume_normal p r s : exists s', resume env p r s = (Normal tt, s').
Proof.
  destruct p as [fileName file | imageId], r as [[[e |]] | e]; simpl;
    eexists; reflexivity.
Qed.

(** What resuming does to each cell of the store. *)
Lemma resume_gallery p r s :
  uploadedImages (snd (resume env p r s)) =
  match p with
  | AwaitUpload fileName file =>
      if succeeded r then entry_of env fileName file :: uploadedImages s
      else uploadedImages s
  | AwaitRemove imageId =>
      if succeeded r then filter (other_than imageId) (uploadedImages s)
      else uploadedImages s
  end.
Proof.
  destruct p as [fileName file | imageId], r as [[[e |]] | e]; reflexivity.
Qed.

Lemma resume_requests p r s :
  requests (snd (resume env p r s)) = requests s /\
  ticks (snd (resume env p r s)) = ticks s.
Proof.
  destruct p as [fileName file | imageId], r as [[[e |]] | e]; split; reflexivity.
Qed.

Lemma resume_uploading p r s :
  uploading (snd (resume env p r s)) =
  match p with
  | AwaitUpload _ _ => false
  | AwaitRemove _ => uploading s
  end.
Proof.
  destruct p as [fileName file | imageId], r as [[[e |]] | e]; reflexivity.
Qed.

(** Starting an upload: either the file is turned away, or one more
    call is suspended. *)
Lemma call_uploadImage_cases file sys :
  (startsWith (file_type file) "image/" = false /\
   call (uploadImage env file) sys =
     mkSys (snd (toast invalid_file_type (ui sys)))
           (inflight sys) (settled sys) (unhandled sys)) \/
  (startsWith (file_type file) "image/" = true /\
   let key := fileName_of (Date_now env (ticks (ui sys))) (file_name file) in
   call (uploadImage env file) sys =
     mkSys (mkState (isDragging (ui sys)) true (uploadedImages (ui sys))
                    (toasts (ui sys)) (console (ui sys))
                    (upload "images" key file :: requests (ui sys))
                    (S (ticks (ui sys))))
           (inflight sys ++ [AwaitUpload key file]) (settled sys) (unhandled sys)).
Proof.
  unfold call, uploadImage.
  destruct (startsWith (file_type file) "image/"); [right | left];
    split; reflexivity.
Qed.

Lemma drop_nth_middle {A} (before after : list A) a :
  drop_nth (List.length before) (before ++ a :: after) = before ++ after.
Proof.
  unfold drop_nth. induction before as [| b before IH]; simpl.
  - reflexivity.
  - f_equal. exact IH.
Qed.

Lemma drop_nth_split {A} (l : list A) n a :
  nth_error l n = Some a ->
  exists before after, l = before ++ a :: after /\ drop_nth n l = before ++ after.
Proof.
  intros Hn. destruct (nth_error_split l n Hn) as [l1 [l2 [-> Hlen]]].
  exists l1, l2. split; [reflexivity |]. subst n. apply drop_nth_middle.
Qed.

(** An answer either finds no suspended call, or resumes exactly one. *)
Lemma settle_cases n r sys :
  settle env n r sys = sys \/
  exists p before after,
    inflight sys = before ++ p :: after /\
    settle env n r sys =
      mkSys (snd (resume env p r (ui sys))) (before ++ after)
            ((p, r) :: settled sys) (unhandled sys).
Proof.
  unfold settle. destruct (nth_error (inflight sys) n) as [p |] eqn:Hn; [right | now left].
  destruct (drop_nth_split _ _ _ Hn) as [before [after [Hin Hdrop]]].
  exists p, before, after. split; [exact Hin |].
  destruct (resume_normal p r (ui sys)) as [s' Hres]. rewrite Hres, Hdrop. reflexivity.
Qed.

(** Induction over the event loop: a property that holds of the mounted
    component and is kept by each handler holds after every run. *)
Lemma run_invariant (P : Sys -> Prop) :
  (forall sys file, P sys -> P (call (uploadImage env file) sys)) ->
  (forall sys b, P sys -> P (exec (setIsDragging b) sys)) ->
  (forall sys imageId, P sys -> P (call (removeImage imageId) sys)) ->
  (forall sys n r, P sys -> P (settle env n r sys)) ->
  forall evs sys, P sys -> P (run env evs sys).
Proof.
  intros Hup Hdrag Hrm Hset.
  assert (Hfor : forall files sys, P sys -> P (forEach_uploadImage env files sys)).
  { unfold forEach_uploadImage. induction files as [| f files IH]; intros sys HP; simpl.
    - exact HP.
    - apply IH. now apply Hup. }
  unfold run. induction evs as [| ev evs IH]; intros sys HP; simpl; [exact HP |].
  apply IH. destruct ev; simpl.
  - apply Hfor. now apply Hdrag.
  - now apply Hdrag.
  - now apply Hdrag.
  - now apply Hfor.
  - now apply Hrm.
  - now apply Hset.
Qed.

(** No promise of the component is ever rejected. *)
Lemma nothing_unhandled (evs : list Event) : unhandled (run env evs mounted) = [].
Proof.
  apply (run_invariant (fun sys => unhandled sys = [])).
  - intros sys file IH.
    destruct (call_uploadImage_cases file sys) as [[_ ->] | [_ ->]]; exact IH.
  - intros sys b IH. exact IH.
  - intros sys imageId IH. exact IH.
  - intros sys n r IH.
    destruct (settle_cases n r sys) as [-> | (p & before & after & _ & ->)]; exact IH.
  - reflexivity.
Qed.

(** **** The gallery against the provider's answers *)

Lemma live_cons img p r log :
  live env img ((p, r) :: log) <->
  (succeeded r = true /\
   exists fileName file, p = AwaitUpload fileName file /\ img = entry_of env fileName file) \/
  (live env img log /\ ~ (p = AwaitRemove (id img) /\ succeeded r = true)).
Proof.
  split.
  - intros (newer & older & fn & f & r0 & Hlog & Hok & Himg & Hno).
    destruct newer as [| x newer]; simpl in Hlog.
    + injection Hlog as -> -> ->. left. split; [exact Hok |]. now exists fn, f.
    + injection Hlog as <- ->. right. split.
      * exists newer, older, fn, f, r0. repeat split; auto.
        intros r' Hin. apply Hno. now right.
      * intros [Hp Hs]. subst p.
        rewrite (Hno r) in Hs; [discriminate Hs | now left].
  - intros [(Hok & fn & f & -> & ->) |
            ((newer & older & fn & f & r0 & -> & Hok & Himg & Hno) & Hnot)].
    + exists [], log, fn, f, r. repeat split; auto. intros r' [].
    + exists ((p, r) :: newer), older, fn, f, r0. repeat split; auto.
      intros r' [Heq | Hin]; [| now apply Hno].
      injection Heq as -> ->.
      destruct (succeeded r') eqn:Hs; [| reflexivity].
      exfalso. apply Hnot. now split.
Qed.

Lemma call_uploadImage_frame file sys :
  gallery (call (uploadImage env file) sys) = gallery sys /\
  settled (call (uploadImage env file) sys) = settled sys /\
  unhandled (call (uploadImage env file) sys) = unhandled sys.
Proof.
  destruct (call_uploadImage_cases file sys) as [[_ ->] | [_ ->]]; repeat split.
Qed.

(** X18. After any sequence of drops, file selections, delete clicks and
    provider answers, in any interleaving, an entry is in the gallery
    list exactly when the provider has reported its upload successful and
    has not, since that answer, reported a delete of its key successful.
    A successful delete that came before the upload's answer does not
    count. *)
Theorem gallery_tracks_provider (evs : list Event) :
  let sys := run env evs mounted in
  (forall img, In img (gallery sys) -> live env img (settled sys)) /\
  (forall img, live env img (settled sys) -> In img (gallery sys)).
Proof.
  cut (forall img, In img (gallery (run env evs mounted)) <->
                   live env img (settled (run env evs mounted))).
  { intros H. split; intros img; apply H. }
  apply (run_invariant
           (fun sys => forall img, In img (gallery sys) <-> live env img (settled sys))).
  - intros sys file IH img.
    destruct (call_uploadImage_frame file sys) as (-> & -> & _). apply IH.
  - intros sys b IH img. apply IH.
  - intros sys imageId IH img. apply IH.
  - intros sys n r IH img.
    destruct (settle_cases n r sys) as [-> | (p & before & after & Hin & ->)]; [apply IH |].
    unfold gallery in *. simpl. rewrite resume_gallery, live_cons, <- IH.
    destruct p as [fileName file | imageId]; destruct (succeeded r) eqn:Hs; simpl.
    + split.
      * intros [<- | Hin']; [left; split; eauto | right; split; [exact Hin' |]].
        intros [Hp _]; discriminate Hp.
      * intros [(_ & fn & f & Hp & ->) | [Hin' _]]; [left | now right].
        now injection Hp as -> ->.
    + split.
      * intros Hin'. right. split; [exact Hin' |]. intros [Hp _]; discriminate Hp.
      * intros [(Hf & _) | [Hin' _]]; [discriminate Hf | exact Hin'].
    + rewrite filter_other_than_in. split.
      * intros [Hin' Hne]. right. split; [exact Hin' |].
        intros [Hp _]. injection Hp as ->. now apply Hne.
      * intros [(_ & fn & f & Hp & _) | [Hin' Hnot]]; [discriminate Hp |].
        split; [exact Hin' |]. intros Heq. apply Hnot. subst imageId. now split.
    + split.
      * intros Hin'. right. split; [exact Hin' |]. intros [_ Hf]; discriminate Hf.
      * intros [(Hf & _) | [Hin' _]]; [discriminate Hf | exact Hin'].
  - intros img. simpl. split; [intros [] |].
    intros (newer & older & fn & f & r & Hlog & _). now destruct newer.
Qed.

(** **** The [uploading] flag *)

(** While the flag is set, some upload is outstanding. *)
Lemma uploading_implies_outstanding (evs : list Event) :
  let sys := run env evs mounted in
  uploading (ui sys) = true -> upload_outstanding sys = true.
Proof.
  apply (run_invariant
           (fun sys => uploading (ui sys) = true -> upload_outstanding sys = true)).
  - intros sys file IH.
    destruct (call_uploadImage_cases file sys) as [[_ ->] | [_ ->]];
      unfold upload_outstanding in *; simpl.
    + exact IH.
    + intros _. rewrite existsb_app. simpl. apply orb_true_r.
  - intros sys b IH. exact IH.
  - intros sys imageId IH. unfold upload_outstanding in *. simpl.
    rewrite existsb_app. simpl. rewrite !orb_false_r. exact IH.
  - intros sys n r IH.
    destruct (settle_cases n r sys) as [-> | (p & before & after & Hin & ->)]; [exact IH |].
    unfold upload_outstanding in *. simpl. rewrite resume_uploading.
    destruct p as [fileName file | imageId]; [discriminate |].
    rewrite Hin in IH. rewrite existsb_app in *. simpl in IH. exact IH.
  - discriminate.
Qed.

(** **** The shape of gallery entries *)

Lemma other_than_keeps imageId l img :
  In img (filter (other_than imageId) l) -> In img l.
Proof. intros H. now apply filter_In in H. Qed.

(** C10. After any sequence of events, every entry of the gallery list
    has as url the public URL the provider resolves for its id in the
    "images" bucket, and as name a suffix of its id: the id is a
    timestamp read from the clock, a dash, and the name.  [uploadImage]
    adds such an entry and nothing else; [removeImage] only takes
    entries away. *)
Theorem gallery_entries_well_formed (evs : list Event) :
  forall img, In img (gallery (run env evs mounted)) -> well_formed env img.
Proof.
  cut (let sys := run env evs mounted in
       (forall img, In img (gallery sys) -> well_formed env img) /\
       (forall p, In p (inflight sys) -> keyed env p)).
  { intros [H _]. exact H. }
  apply (run_invariant
           (fun sys => (forall img, In img (gallery sys) -> well_formed env img) /\
                       (forall p, In p (inflight sys) -> keyed env p))).
  - intros sys file [Hg Hp].
    destruct (call_uploadImage_cases file sys) as [[_ ->] | [_ ->]]; simpl.
    + split; assumption.
    + split; [exact Hg |]. intros p Hin. apply in_app_or in Hin.
      destruct Hin as [Hin | [<- | []]]; [now apply Hp |].
      simpl. now exists (ticks (ui sys)).
  - intros sys b IH. exact IH.
  - intros sys imageId [Hg Hp]. split; [exact Hg |]. simpl.
    intros p Hin. apply in_app_or in Hin.
    destruct Hin as [Hin | [<- | []]]; [now apply Hp | exact I].
  - intros sys n r [Hg Hp].
    destruct (settle_cases n r sys) as [-> | (p & before & after & Hin & ->)];
      [now split |].
    unfold gallery in *. simpl. split.
    + intros img. rewrite resume_gallery.
      assert (Hk : keyed env p).
      { apply Hp. rewrite Hin. apply in_or_app. right. now left. }
      destruct p as [fileName file | imageId]; destruct (succeeded r); auto.
      * intros [<- | Hin']; [| now apply Hg].
        destruct Hk as [k ->]. unfold well_formed, entry_of. simpl.
        repeat split; [apply fileName_of_ends_with | now exists k].
      * intros Hin'. apply Hg. now apply other_than_keeps in Hin'.
    + intros q Hq. apply Hp. rewrite Hin.
      apply in_app_or in Hq. apply in_or_app.
      destruct Hq as [Hq | Hq]; [now left | right; now right].
  - split; [intros img [] | intros p []].
Qed.

(** **** Keys and ids *)

Lemma count_ids_filter_le imageId l k :
  count_occ string_dec (map id (filter (other_than imageId) l)) k
  <= count_occ string_dec (map id l) k.
Proof.
  induction l as [| img l IH]; simpl; [lia |].
  destruct (other_than imageId img); simpl;
    destruct (string_dec (id img) k); lia.
Qed.

(** Every id in the gallery and every key of a suspended upload is a key
    that was handed to the provider, counted with multiplicity. *)
Lemma keys_accounted (evs : list Event) :
  let sys := run env evs mounted in
  forall k,
    count_occ string_dec (gallery_ids sys) k + count_occ string_dec (pending_keys sys) k
    <= count_occ string_dec (issued_keys sys) k.
Proof.
  apply (run_invariant
           (fun sys => forall k,
              count_occ string_dec (gallery_ids sys) k
              + count_occ string_dec (pending_keys sys) k
              <= count_occ string_dec (issued_keys sys) k)).
  - intros sys file IH k. specialize (IH k).
    destruct (call_uploadImage_cases file sys) as [[_ ->] | [_ ->]];
      unfold gallery_ids, gallery, pending_keys, issued_keys in *; simpl.
    + exact IH.
    + rewrite flat_map_app, count_occ_app. simpl.
      destruct (string_dec _ k); lia.
  - intros sys b IH. exact IH.
  - intros sys imageId IH k. specialize (IH k).
    unfold gallery_ids, gallery, pending_keys, issued_keys in *; simpl.
    rewrite flat_map_app, count_occ_app. simpl. lia.
  - intros sys n r IH k. specialize (IH k).
    destruct (settle_cases n r sys) as [-> | (p & before & after & Hin & ->)]; [exact IH |].
    unfold gallery_ids, gallery, pending_keys, issued_keys in *; simpl.
    rewrite resume_gallery. rewrite (proj1 (resume_requests p r (ui sys))).
    rewrite Hin in IH. rewrite flat_map_app, count_occ_app in *. simpl in IH.
    rewrite count_occ_app in IH.
    destruct p as [fileName file | imageId]; destruct (succeeded r); simpl in *;
      try destruct (string_dec fileName k); try lia.
    pose proof (count_ids_filter_le imageId (uploadedImages (ui sys)) k). lia.
  - intros k. simpl. lia.
Qed.

Lemma gallery_ids_distinct (evs : list Event) :
  let sys := run env evs mounted in
  NoDup (issued_keys sys) -> NoDup (gallery_ids sys).
Proof.
  intros sys Hissued. apply (NoDup_count_occ string_dec). intros k.
  pose proof (proj1 (NoDup_count_occ string_dec _) Hissued k).
  pose proof (keys_accounted evs k). fold sys in H0. lia.
Qed.

Lemma call_uploadImage_started file sys :
  startsWith (file_type file) "image/" = true ->
  call (uploadImage env file) sys =
    mkSys (mkState (isDragging (ui sys)) true (uploadedImages (ui sys))
                   (toasts (ui sys)) (console (ui sys))
                   (upload "images" (fileName_of (Date_now env (ticks (ui sys))) (file_name file))
                           file :: requests (ui sys))
                   (S (ticks (ui sys))))
          (inflight sys ++ [AwaitUpload (fileName_of (Date_now env (ticks (ui sys)))
                                                     (file_name file)) file])
          (settled sys) (unhandled sys).
Proof.
  intros Htype.
  destruct (call_uploadImage_cases file sys) as [[Hno _] | [_ Heq]];
    [congruence | exact Heq].
Qed.

(** X19. The key [`${timestamp}-${file.name}`]
    determines both the timestamp and the name, so two uploads get the
    same key only when they read the same timestamp and carry the same
    file name; as long as the keys handed to the provider are pairwise
    distinct, so are the ids in the gallery; and after a drop of three
    image files with pairwise different names whose uploads all succeed,
    completing in any order, the gallery has three entries with pairwise
    distinct ids. *)
Theorem distinct_names_give_distinct_ids :
  (forall t1 n1 t2 n2,
     fileName_of t1 n1 = fileName_of t2 n2 -> t1 = t2 /\ n1 = n2) /\
  (forall evs,
     NoDup (issued_keys (run env evs mounted)) ->
     NoDup (gallery_ids (run env evs mounted))) /\
  (forall f1 f2 f3 i j,
     startsWith (file_type f1) "image/" = true ->
     startsWith (file_type f2) "image/" = true ->
     startsWith (file_type f3) "image/" = true ->
     NoDup [file_name f1; file_name f2; file_name f3] ->
     i < 3 -> j < 2 ->
     let sys := run env [Drop [f1; f2; f3]; Settles i ok; Settles j ok; Settles 0 ok]
                    mounted in
     List.length (gallery sys) = 3 /\ NoDup (gallery_ids sys) /\ inflight sys = []).
Proof.
  split; [exact fileName_of_inj |]. split; [exact gallery_ids_distinct |].
  intros f1 f2 f3 i j H1 H2 H3 Hnames Hi Hj sys.
  assert (Hkeys : NoDup (issued_keys sys)).
  { subst sys. unfold run, issued_keys. simpl.
    unfold handleDrop, forEach_uploadImage. simpl.
    rewrite !call_uploadImage_started by assumption. simpl.
    assert (Hreq : forall s a b c (r1 r2 r3 : Settled Response),
               requests (ui (settle env c r3 (settle env b r2 (settle env a r1 s))))
               = requests (ui s)).
    { intros s a b c r1 r2 r3.
      assert (Hone : forall s a r, requests (ui (settle env a r s)) = requests (ui s)).
      { intros s0 a0 r0.
        destruct (settle_cases a0 r0 s0) as [-> | (p & before & after & _ & ->)];
          [reflexivity |]. simpl. apply resume_requests. }
      now rewrite !Hone. }
    rewrite Hreq. simpl.
    inversion Hnames as [| ? ? Hn1 Hrest]; subst.
    inversion Hrest as [| ? ? Hn2 _]; subst.
    repeat constructor; simpl; intros Hin;
      repeat (destruct Hin as [Hin | Hin]; [apply fileName_of_inj in Hin |]);
      try contradiction; destruct Hin as [_ Hin];
      try (apply Hn1; simpl; rewrite Hin; tauto);
      try (apply Hn1; simpl; rewrite <- Hin; tauto);
      try (apply Hn2; simpl; rewrite Hin; tauto);
      try (apply Hn2; simpl; rewrite <- Hin; tauto). }
  split; [| split].
  - subst sys. unfold run. simpl. unfold handleDrop, forEach_uploadImage. simpl.
    rewrite !call_uploadImage_started by assumption. simpl.
    assert (Hi' : i = 0 \/ i = 1 \/ i = 2) by lia.
    assert (Hj' : j = 0 \/ j = 1) by lia.
    destruct Hi' as [-> | [-> | ->]], Hj' as [-> | ->]; reflexivity.
  - now apply gallery_ids_distinct.
  - subst sys. unfold run. simpl. unfold handleDrop, forEach_uploadImage. simpl.
    rewrite !call_uploadImage_started by assumption. simpl.
    assert (Hi' : i = 0 \/ i = 1 \/ i = 2) by lia.
    assert (Hj' : j = 0 \/ j = 1) by lia.
    destruct Hi' as [-> | [-> | ->]], Hj' as [-> | ->]; reflexivity.
Qed.

(** C8, evaluated.  Two image files are dropped together and the first
    upload completes, whatever the provider answers: the [uploading]
    flag is false although the second upload is still outstanding. *)
Theorem uploading_cleared_by_first_completion (r : Settled Response) :
  let sys := run env [Drop [cat_png; dog_jpg]; Settles 0 r] mounted in
  uploading (ui sys) = false /\
  upload_outstanding sys = true /\
  inflight sys = [AwaitUpload (fileName_of (Date_now env 1) "dog.jpg") dog_jpg].
Proof.
  destruct r as [[[e |]] | e]; repeat split.
Qed.

End EventLoop.

(** *** The properties on the sample data *)

Lemma uploadImage_rejects_non_image_witness :
  startsWith (file_type notes_txt) "image/" = false /\
  exists s',
    uploadImage sample_env notes_txt initial = (Normal None, s') /\
    requests s' = requests initial /\
    toasts s' = invalid_file_type :: toasts initial /\
    uploadedImages s' = uploadedImages initial /\
    uploading s' = uploading initial /\
    ticks s' = ticks initial.
Proof.
  split; [reflexivity |].
  apply (uploadImage_rejects_non_image sample_env notes_txt initial). reflexivity.
Defined.


Lemma successful_delete_removes_matching_entry_witness :
  succeeded ok = true /\
  exists s',
    removeImage_resume cat_key ok (ui two_uploaded) = (Normal tt, s') /\
    (forall img, In img (uploadedImages s') -> id img <> cat_key) /\
    (forall img, id img <> cat_key ->
       (In img (uploadedImages s') <-> In img (uploadedImages (ui two_uploaded)))) /\
    struck_out cat_key (uploadedImages (ui two_uploaded)) (uploadedImages s') /\
    toasts s' = image_deleted :: toasts (ui two_uploaded).
Proof.
  split; [reflexivity |].
  apply (successful_delete_removes_matching_entry cat_key ok (ui two_uploaded)). reflexivity.
Defined.

Lemma cat_no_longer_listed :
  forall img, In img (uploadedImages (ui cat_deleted)) -> id img <> cat_key.
Proof.
  intros img Hin. vm_compute in Hin. destruct Hin as [<- | []]. discriminate.
Defined.

Lemma removeImage_again_is_noop_witness :
  (forall img, In img (uploadedImages (ui cat_deleted)) -> id img <> cat_key) /\
  (exists s1,
     removeImage cat_key (ui cat_deleted) = (Normal (Some (AwaitRemove cat_key)), s1) /\
     uploadedImages s1 = uploadedImages (ui cat_deleted)) /\
  (forall r, exists s',
     removeImage_resume cat_key r (ui cat_deleted) = (Normal tt, s') /\
     uploadedImages s' = uploadedImages (ui cat_deleted)).
Proof.
  split; [exact cat_no_longer_listed |].
  apply (removeImage_again_is_noop cat_key (ui cat_deleted)). exact cat_no_longer_listed.
Defined.

Lemma failed_delete_leaves_gallery_witness :
  succeeded (failed not_found) = false /\
  exists s1,
    removeImage cat_key (ui two_uploaded) = (Normal (Some (AwaitRemove cat_key)), s1) /\
    uploadedImages s1 = uploadedImages (ui two_uploaded) /\
    toasts s1 = toasts (ui two_uploaded) /\
    forall s2, exists s3,
      removeImage_resume cat_key (failed not_found) s2 = (Normal tt, s3) /\
      toasts s3 = delete_failed :: toasts s2 /\
      uploadedImages s3 = uploadedImages s2.
Proof.
  split; [reflexivity |].
  apply (failed_delete_leaves_gallery cat_key (failed not_found) (ui two_uploaded)).
  reflexivity.
Defined.

Lemma dog_still_listed : In dog_entry (gallery (run sample_env sample_events mounted)).
Proof. vm_compute. left. reflexivity. Defined.

Lemma gallery_tracks_provider_witness :
  In dog_entry (gallery (run sample_env sample_events mounted)) /\
  live sample_env dog_entry (settled (run sample_env sample_events mounted)).
Proof.
  split; [exact dog_still_listed |].
  exact (proj1 (gallery_tracks_provider sample_env sample_events)
               dog_entry dog_still_listed).
Defined.

Lemma gallery_entries_well_formed_witness :
  In dog_entry (gallery (run sample_env sample_events mounted)) /\
  well_formed sample_env dog_entry.
Proof.
  split; [exact dog_still_listed |].
  exact (gallery_entries_well_formed sample_env sample_events
           dog_entry dog_still_listed).
Defined.

Lemma three_names_distinct :
  NoDup [file_name cat_png; file_name dog_jpg; file_name owl_gif].
Proof.
  repeat constructor; simpl; intros H;
    repeat (destruct H as [H | H]; [discriminate H |]); exact H.
Defined.

Lemma distinct_names_give_distinct_ids_witness :
  let sys := run sample_env
                 [Drop [cat_png; dog_jpg; owl_gif]; Settles 1 ok; Settles 0 ok; Settles 0 ok]
                 mounted in
  startsWith (file_type cat_png) "image/" = true /\
  startsWith (file_type dog_jpg) "image/" = true /\
  startsWith (file_type owl_gif) "image/" = true /\
  NoDup [file_name cat_png; file_name dog_jpg; file_name owl_gif] /\
  1 < 3 /\ 0 < 2 /\
  List.length (gallery sys) = 3 /\ NoDup (gallery_ids sys) /\ inflight sys = [].
Proof.
  repeat (split; [first [reflexivity | lia | exact three_names_distinct] |]).
  apply (proj2 (proj2 (distinct_names_give_distinct_ids sample_env))
           cat_png dog_jpg owl_gif 1 0);
    try reflexivity; try lia.
  exact three_names_distinct.
Defined.

(** C7, as stated, fails.  Two image files of the same name dropped in
    the same millisecond are handed the same key; if the provider accepts
    all three uploads the gallery shows the same id twice, and if it
    turns the second one down as a duplicate the gallery ends with two
    entries. *)
Lemma same_name_same_millisecond_share_key :
  startsWith (file_type cat_png) "image/" = true /\
  startsWith (file_type owl_gif) "image/" = true /\
  pending_keys (run sample_env [Drop [cat_png; cat_png; owl_gif]] mounted)
    = [cat_key; cat_key; "1753785410000-owl.gif"] /\
  ~ NoDup (gallery_ids (run sample_env
             [Drop [cat_png; cat_png; owl_gif]; Settles 0 ok; Settles 0 ok; Settles 0 ok]
             mounted)) /\
  List.length (gallery (run sample_env
             [Drop [cat_png; cat_png; owl_gif];
              Settles 0 ok; Settles 0 (failed (mkError "The resource already exists"));
              Settles 0 ok]
             mounted)) = 2.
Proof.
  repeat split.
  intros Hnodup. vm_compute in Hnodup.
  inversion Hnodup as [| ? ? _ Hrest]. inversion Hrest as [| ? ? Hnotin _].
  apply Hnotin. now left.
Qed.

End ImageUploadSpec.

(** ** Properties of the session gate *)
Module IndexSpec.
Import Index.

(** X20. When [signOut()] answers with an error, [handleSignOut] shows a
    notification whose description is exactly the provider's message and
    leaves [user] and [loading] as they are, so the page renders what it
    rendered before (the upload panel stays); when it answers without an
    error, the signed-out confirmation is shown.  Issuing the call
    changes neither the user nor the notifications. *)
Theorem sign_out_outcomes (s : State) :
  (forall e, exists s',
     handleSignOut_resume (failed e) s = (Normal tt, s') /\
     toasts s' = mkToast "Error signing out" (message e) (Some Destructive) :: toasts s /\
     user s' = user s /\
     loading s' = loading s /\
     render s' = render s) /\
  (exists s',
     handleSignOut_resume ok s = (Normal tt, s') /\
     toasts s' = signed_out :: toasts s) /\
  (exists s0,
     handleSignOut s = (Normal tt, s0) /\
     user s0 = user s /\ loading s0 = loading s /\ toasts s0 = toasts s).
Proof.
  split; [| split].
  - intros e. eexists. split; [reflexivity |]. repeat split.
  - eexists. split; reflexivity.
  - eexists. split; [reflexivity |]. repeat split.
Qed.

(** The scenario of the specification: a signed-in user, the sign-out
    call failing with "network error". *)
Example sign_out_network_error :
  let s := mkState (Some (mkUser "u1")) false [] [] [signOut] in
  let s' := snd (handleSignOut_resume (failed (mkError "network error")) s) in
  map description (toasts s') = ["network error"] /\
  user s' = user s /\
  render s' = UploadPanel.
Proof. repeat split. Qed.

End IndexSpec.

(** ** Further properties of the upload panel *)
Module ImageUploadLoop.
Import ImageUpload ImageUploadSpec.

Section Handlers.

Variable env : Env.

Lemma images_in_le files : images_in files <= List.length files.
Proof. apply filter_length_le. Qed.

Lemma repeat_shift {A} (x : A) n l : repeat x n ++ x :: l = repeat x (S n) ++ l.
Proof.
  change (x :: l) with ([x] ++ l). rewrite app_assoc, <- repeat_cons. reflexivity.
Qed.

Lemma handled_skip f files sys after started :
  is_image f = false ->
  each_file_handled env files
    (mkSys (snd (toast invalid_file_type (ui sys)))
           (inflight sys) (settled sys) (unhandled sys))
    after started ->
  each_file_handled env (f :: files) sys after started.
Proof.
  intros Hbad (Hin & Hlen & Hnth & Htoast & Hup & Hticks & Hdrag & Hgal & Hcon & Hset).
  unfold each_file_handled, images_in.
  simpl in Hin, Hnth, Htoast, Hup, Hticks, Hdrag, Hcon, Hset.
  cbn [filter List.length existsb]. rewrite Hbad. cbn [orb].
  split; [exact Hin |]. split; [exact Hlen |]. split; [exact Hnth |].
  split; [| repeat split; assumption].
  rewrite Htoast. pose proof (images_in_le files) as Hle. unfold images_in in *.
  replace (S (List.length files) - List.length (filter is_image files))
    with (S (List.length files - List.length (filter is_image files))) by lia.
  apply repeat_shift.
Qed.

Lemma handled_start f files sys after started :
  is_image f = true ->
  each_file_handled env files
    (mkSys (mkState (isDragging (ui sys)) true (uploadedImages (ui sys))
                    (toasts (ui sys)) (console (ui sys))
                    (upload "images"
                            (fileName_of (Date_now env (ticks (ui sys))) (file_name f)) f
                       :: requests (ui sys))
                    (S (ticks (ui sys))))
           (inflight sys
              ++ [AwaitUpload (fileName_of (Date_now env (ticks (ui sys))) (file_name f)) f])
           (settled sys) (unhandled sys))
    after started ->
  each_file_handled env (f :: files) sys after
    (AwaitUpload (fileName_of (Date_now env (ticks (ui sys))) (file_name f)) f :: started).
Proof.
  intros Hgood (Hin & Hlen & Hnth & Htoast & Hup & Hticks & Hdrag & Hgal & Hcon & Hset).
  unfold each_file_handled, images_in.
  simpl in Hin, Hnth, Htoast, Hup, Hticks, Hdrag, Hcon, Hset.
  cbn [filter List.length existsb]. rewrite Hgood. cbn [orb List.length].
  split; [now rewrite Hin, <- app_assoc |].
  split; [now rewrite Hlen |].
  split.
  { intros i file Hi. destruct i as [| i]; simpl in *.
    - injection Hi as <-. now rewrite Nat.add_0_r.
    - rewrite (Hnth i file Hi). now rewrite Nat.add_succ_r. }
  split.
  { rewrite Htoast. unfold images_in. reflexivity. }
  split; [rewrite Hup; now rewrite orb_true_r |].
  split; [rewrite Hticks; unfold images_in; lia |].
  repeat split; assumption.
Qed.

(** [forEach] goes through the whole list: a file that is turned away
    does not stop the files after it. *)
Lemma forEach_uploadImage_spec files : forall sys,
  exists started,
    each_file_handled env files sys (forEach_uploadImage env files sys) started.
Proof.
  unfold forEach_uploadImage.
  induction files as [| f files IH]; intros sys; simpl.
  - exists []. unfold each_file_handled, images_in. simpl.
    rewrite app_nil_r, Nat.add_0_r, orb_false_r. repeat split.
    intros i file Hi. now destruct i.
  - destruct (call_uploadImage_cases env f sys) as [[Hbad Hcall] | [Hgood Hcall]];
      rewrite Hcall; clear Hcall.
    + destruct (IH (mkSys (snd (toast invalid_file_type (ui sys)))
                          (inflight sys) (settled sys) (unhandled sys)))
        as [started Hs].
      exists started. now apply handled_skip.
    + match goal with |- context [fold_left _ files ?s1] =>
        destruct (IH s1) as [started Hs] end.
      eexists. apply handled_start; [exact Hgood | exact Hs].
Qed.

Lemma started_are_uploads files before after started :
  each_file_handled env files before after started ->
  forall p, In p started -> is_upload p = true.
Proof.
  intros (_ & Hlen & Hnth & _) p Hp.
  apply In_nth_error in Hp. destruct Hp as [i Hi].
  assert (Hlt : i < List.length started).
  { apply nth_error_Some. rewrite Hi. discriminate. }
  rewrite Hlen in Hlt. unfold images_in in Hlt.
  apply nth_error_Some in Hlt.
  destruct (nth_error (filter is_image files) i) as [file |] eqn:Hfile; [| congruence].
  rewrite (Hnth i file Hfile) in Hi. now injection Hi as <-.
Qed.

(** X1. [handleDrop] and [handleFileInput] hand every file of the list to
    [uploadImage], whatever the files before it were.  Each image file
    gets a suspended upload, in the order of the list, the i-th of
    them keyed with the i-th reading of the clock from the call on; each
    other file gets one invalid-file-type notification; the flag is set
    when there is at least one image; gallery, console and the log of
    settled calls are untouched.  The drop, in addition, ends the drag
    state. *)
Theorem drop_handles_every_file (files : list File) (sys : Sys) :
  (exists started,
     each_file_handled env files (exec (setIsDragging false) sys)
                       (handleDrop env files sys) started) /\
  isDragging (ui (handleDrop env files sys)) = false /\
  (exists started,
     each_file_handled env files sys (handleFileInput env files sys) started).
Proof.
  split; [| split].
  - apply forEach_uploadImage_spec.
  - destruct (forEach_uploadImage_spec files (exec (setIsDragging false) sys))
      as [started Hs].
    destruct Hs as (_ & _ & _ & _ & _ & _ & Hdrag & _). exact Hdrag.
  - apply forEach_uploadImage_spec.
Qed.

(** X2. A failed upload.  When the storage call of an upload fails (an error
    in the answer, or a rejected promise), [uploadImage] still completes
    normally: the gallery list is as before, the upload-failed
    notification is shown, the error is on the console under "Upload
    error:", the [uploading] flag is cleared by the [finally] block, and
    no further call goes to the provider (the file is dropped, not
    retried). *)
Theorem failed_upload_is_dropped (fileName : string) (file : File)
    (r : Settled Response) (s : State) :
  succeeded r = false ->
  exists s' e,
    uploadImage_resume env fileName file r s = (Normal tt, s') /\
    (r = failed e \/ r = Rejected e) /\
    uploadedImages s' = uploadedImages s /\
    toasts s' = upload_failed :: toasts s /\
    console s' = ("Upload error:"%string, e) :: console s /\
    uploading s' = false /\
    requests s' = requests s.
Proof.
  intros Hfail. apply not_succeeded in Hfail. destruct Hfail as [e [-> | ->]];
    eexists; exists e; (split; [reflexivity |]); simpl; repeat split; auto.
Qed.

(** X3. Upload, then delete.  If no entry of the gallery has the key yet, a
    successful upload under that key followed by a successful delete of
    it gives back the gallery list as it was. *)
Theorem upload_then_delete_restores_gallery (fileName : string) (file : File)
    (s : State) :
  (forall img, In img (uploadedImages s) -> id img <> fileName) ->
  uploadedImages
    (snd (removeImage_resume fileName ok
            (snd (uploadImage_resume env fileName file ok s))))
  = uploadedImages s.
Proof.
  intros Hfresh. simpl. unfold other_than at 1. simpl.
  rewrite String.eqb_refl. simpl. now apply filter_other_than_absent.
Qed.

Lemma filter_other_than_comm a b l :
  filter (other_than a) (filter (other_than b) l)
  = filter (other_than b) (filter (other_than a) l).
Proof.
  induction l as [| img l IH]; simpl; [reflexivity |].
  destruct (other_than a img) eqn:Ha, (other_than b img) eqn:Hb; simpl;
    rewrite ?Ha, ?Hb; now rewrite IH.
Qed.

(** X4. Two deletes in flight.  Whatever the provider answers to each, the
    gallery list is the same whichever of the two answers arrives
    first. *)
Theorem deletes_settle_in_any_order (a b : string) (ra rb : Settled Response)
    (s : State) :
  uploadedImages (snd (removeImage_resume b rb (snd (removeImage_resume a ra s))))
  = uploadedImages (snd (removeImage_resume a ra (snd (removeImage_resume b rb s)))).
Proof.
  destruct ra as [[[ea |]] | ea], rb as [[[eb |]] | eb]; simpl; try reflexivity.
  apply filter_other_than_comm.
Qed.

End Handlers.

Section Runs.

Variable env : Env.

Lemma resume_toasts p r s :
  exists t, toasts (snd (resume env p r s)) = t :: toasts s.
Proof.
  destruct p as [fileName file | imageId], r as [[[e |]] | e]; simpl;
    eexists; reflexivity.
Qed.

Lemma resume_console p r s :
  List.length (console (snd (resume env p r s)))
  = List.length (console s) + (if succeeded r then 0 else 1).
Proof.
  destruct p as [fileName file | imageId], r as [[[e |]] | e]; simpl; lia.
Qed.

Lemma resume_isDragging p r s :
  isDragging (snd (resume env p r s)) = isDragging s.
Proof.
  destruct p as [fileName file | imageId], r as [[[e |]] | e]; reflexivity.
Qed.

Lemma existsb_count {A} (f : A -> bool) l :
  existsb f l = negb (Nat.eqb (List.length (filter f l)) 0).
Proof.
  induction l as [| x l IH]; simpl; [reflexivity |].
  destruct (f x); simpl; [reflexivity | exact IH].
Qed.

Lemma filter_all {A} (f : A -> bool) l :
  (forall x, In x l -> f x = true) -> filter f l = l.
Proof.
  induction l as [| x l IH]; intros Hall; simpl; [reflexivity |].
  rewrite (Hall x (or_introl eq_refl)). f_equal. apply IH.
  intros y Hy. apply Hall. now right.
Qed.

(** **** Calls, answers and notifications *)

(** X5. No retry, no stray call.  After any run, the calls made to the
    storage provider are, one for one, the calls still awaited and the
    calls already answered: each [uploadImage] on an image and each
    [removeImage] makes exactly one call, to the "images" bucket, and
    none is repeated after a failure.  The clock has been read once per
    upload call. *)
Theorem every_call_awaited_or_answered (evs : list Event) :
  let sys := run env evs mounted in
  Permutation (requests (ui sys))
              (map request_of (inflight sys ++ map fst (settled sys))) /\
  ticks (ui sys) = List.length (issued_keys sys).
Proof.
  apply (run_invariant env
           (fun sys =>
              Permutation (requests (ui sys))
                          (map request_of (inflight sys ++ map fst (settled sys))) /\
              ticks (ui sys) = List.length (issued_keys sys))).
  - intros sys file [IH Ht].
    destruct (call_uploadImage_cases env file sys) as [[_ ->] | [_ ->]];
      unfold issued_keys in *; simpl.
    + split; assumption.
    + split; [| now rewrite Ht].
      rewrite <- app_assoc, map_app. simpl.
      apply Permutation_cons_app. now rewrite <- map_app.
  - intros sys b IH. exact IH.
  - intros sys imageId [IH Ht]. unfold issued_keys in *. simpl.
    split; [| exact Ht].
    rewrite <- app_assoc, map_app. simpl.
    apply Permutation_cons_app. now rewrite <- map_app.
  - intros sys n r [IH Ht].
    destruct (settle_cases env n r sys) as [-> | (p & before & after & Hin & ->)];
      [now split |].
    unfold issued_keys in *. simpl.
    destruct (resume_requests env p r (ui sys)) as [-> ->].
    split; [| exact Ht].
    rewrite IH, Hin. apply Permutation_map.
    rewrite <- !app_assoc. apply Permutation_app_head. simpl.
    apply Permutation_middle.
  - split; [constructor | reflexivity].
Qed.

Lemma step_notifies sys ev :
  List.length (toasts (ui (step env sys ev))) + List.length (inflight (step env sys ev))
  = List.length (toasts (ui sys)) + List.length (inflight sys)
    + files_given [ev] + delete_clicks [ev].
Proof.
  assert (Hfor : forall files before,
             List.length (toasts (ui (forEach_uploadImage env files before)))
             + List.length (inflight (forEach_uploadImage env files before))
             = List.length (toasts (ui before)) + List.length (inflight before)
               + List.length files).
  { intros files before.
    destruct (forEach_uploadImage_spec env files before) as [started Hs].
    destruct Hs as (Hin & Hlen & _ & Htoast & _).
    rewrite Hin, Htoast, !length_app, repeat_length, Hlen.
    pose proof (images_in_le files). lia. }
  destruct ev; simpl.
  - unfold handleDrop. rewrite Hfor. simpl. lia.
  - lia.
  - lia.
  - unfold handleFileInput. rewrite Hfor. lia.
  - rewrite length_app. simpl. lia.
  - destruct (settle_cases env n r sys) as [-> | (p & before & after & Hin & ->)];
      [lia |].
    simpl. destruct (resume_toasts p r (ui sys)) as [t ->].
    rewrite Hin, !length_app. simpl. lia.
Qed.

Lemma files_given_cons ev evs :
  files_given (ev :: evs) = files_given [ev] + files_given evs.
Proof. destruct ev; simpl; lia. Qed.

Lemma delete_clicks_cons ev evs :
  delete_clicks (ev :: evs) = delete_clicks [ev] + delete_clicks evs.
Proof. destruct ev; simpl; lia. Qed.

Lemma run_notifies evs : forall sys,
  List.length (toasts (ui (run env evs sys))) + List.length (inflight (run env evs sys))
  = List.length (toasts (ui sys)) + List.length (inflight sys)
    + files_given evs + delete_clicks evs.
Proof.
  unfold run. induction evs as [| ev evs IH]; intros sys.
  - simpl. lia.
  - cbn [fold_left]. rewrite IH, step_notifies.
    rewrite (files_given_cons ev evs), (delete_clicks_cons ev evs). lia.
Qed.

(** X6. One notification per request.  After any run, every file handed to
    the component and every delete click has produced exactly one
    notification, except those whose storage call is still awaited; and
    the console holds one line per call that failed, and nothing else. *)
Theorem one_notification_per_request (evs : list Event) :
  let sys := run env evs mounted in
  List.length (toasts (ui sys)) + List.length (inflight sys)
    = files_given evs + delete_clicks evs /\
  List.length (console (ui sys)) = failures (settled sys).
Proof.
  split.
  - rewrite run_notifies. reflexivity.
  - apply (run_invariant env
             (fun sys => List.length (console (ui sys)) = failures (settled sys))).
    + intros sys file IH.
      destruct (call_uploadImage_cases env file sys) as [[_ ->] | [_ ->]]; exact IH.
    + intros sys b IH. exact IH.
    + intros sys imageId IH. exact IH.
    + intros sys n r IH.
      destruct (settle_cases env n r sys) as [-> | (p & before & after & Hin & ->)];
        [exact IH |].
      simpl. rewrite resume_console, IH. unfold failures. simpl.
      destruct (succeeded r); simpl; lia.
    + reflexivity.
Qed.

(** **** The drag state *)

Lemma step_dragging sys ev :
  isDragging (ui (step env sys ev)) = dragging_after [ev] (isDragging (ui sys)).
Proof.
  destruct ev; simpl; try reflexivity.
  - destruct (forEach_uploadImage_spec env files (exec (setIsDragging false) sys))
      as [started Hs].
    destruct Hs as (_ & _ & _ & _ & _ & _ & Hdrag & _). exact Hdrag.
  - destruct (forEach_uploadImage_spec env files sys) as [started Hs].
    destruct Hs as (_ & _ & _ & _ & _ & _ & Hdrag & _). exact Hdrag.
  - destruct (settle_cases env n r sys) as [-> | (p & before & after & Hin & ->)];
      [reflexivity |].
    simpl. apply resume_isDragging.
Qed.

(** X7. The drag highlight depends on the drag events only: it is on exactly
    when the last of drag-over, drag-leave and drop was a drag-over.
    Selecting files, uploads, deletes and the provider's answers never
    change it. *)
Theorem drag_state_follows_drag_events (evs : list Event) :
  isDragging (ui (run env evs mounted)) = dragging_after evs false.
Proof.
  cut (forall sys,
         isDragging (ui (run env evs sys)) = dragging_after evs (isDragging (ui sys))).
  { intros H. apply (H mounted). }
  unfold run, dragging_after.
  induction evs as [| ev evs IH]; intros sys; [reflexivity |].
  cbn [fold_left]. rewrite IH. f_equal. apply step_dragging.
Qed.

(** **** The order of the gallery *)

(** X8. As long as no delete has succeeded, the gallery list is the list of
    the uploads the provider reported successful, in the order in which
    its answers arrived, latest first: the order of completion, not the
    order in which the files were dropped. *)
Theorem gallery_in_completion_order (evs : list Event) :
  let sys := run env evs mounted in
  no_delete_succeeded (settled sys) ->
  gallery sys = completed_uploads env (settled sys).
Proof.
  apply (run_invariant env
           (fun sys => no_delete_succeeded (settled sys) ->
                       gallery sys = completed_uploads env (settled sys))).
  - intros sys file IH.
    destruct (call_uploadImage_frame env file sys) as (-> & -> & _). exact IH.
  - intros sys b IH. exact IH.
  - intros sys imageId IH. exact IH.
  - intros sys n r IH.
    destruct (settle_cases env n r sys) as [-> | (p & before & after & Hin & ->)];
      [exact IH |].
    unfold gallery in *. simpl. intros Hno. rewrite resume_gallery.
    assert (Hold : no_delete_succeeded (settled sys)).
    { intros k r' Hk. apply (Hno k r'). now right. }
    rewrite <- (IH Hold).
    destruct p as [fileName file | imageId].
    + destruct (succeeded r); reflexivity.
    + rewrite (Hno imageId r); [reflexivity | now left].
  - reflexivity.
Qed.

(** **** The [uploading] flag when uploads do not overlap *)

Lemma step_keeps_flag_exact sys ev :
  uploading (ui sys) = upload_outstanding sys ->
  List.length (filter is_upload (inflight sys)) <= 1 ->
  keeps_uploads_apart sys ev = true ->
  uploading (ui (step env sys ev)) = upload_outstanding (step env sys ev) /\
  List.length (filter is_upload (inflight (step env sys ev))) <= 1.
Proof.
  unfold upload_outstanding. rewrite !existsb_count. intros Hflag Hone Hguard.
  assert (Hfor : forall files before,
             uploading (ui before)
               = negb (Nat.eqb (List.length (filter is_upload (inflight before))) 0) ->
             List.length (filter is_upload (inflight before)) <= 1 ->
             Nat.eqb (images_in files) 0
             || (negb (existsb is_upload (inflight before)) && Nat.eqb (images_in files) 1)
             = true ->
             let after := forEach_uploadImage env files before in
             uploading (ui after)
               = negb (Nat.eqb (List.length (filter is_upload (inflight after))) 0) /\
             List.length (filter is_upload (inflight after)) <= 1).
  { intros files before Hf Ho Hg after.
    destruct (forEach_uploadImage_spec env files before) as [started Hs].
    pose proof (started_are_uploads env _ _ _ _ Hs) as Hall.
    destruct Hs as (Hin & Hlen & _ & _ & Hup & _). fold after in Hin, Hup.
    rewrite Hin, Hup, filter_app, length_app, (filter_all _ _ Hall), Hlen.
    rewrite (existsb_count is_image files). fold (images_in files).
    rewrite existsb_count in Hg.
    rewrite Hf.
    destruct (images_in files) as [| [| k]];
      destruct (List.length (filter is_upload (inflight before))) as [| [| m]];
      simpl in *; try discriminate Hg; try lia; split; (reflexivity || lia). }
  destruct ev; simpl in *.
  - apply (Hfor files (exec (setIsDragging false) sys)); assumption.
  - now split.
  - now split.
  - apply (Hfor files sys); assumption.
  - rewrite filter_app, length_app. simpl. rewrite Nat.add_0_r. now split.
  - destruct (settle_cases env n r sys) as [-> | (p & before & after & Hin & ->)];
      [now split |].
    simpl. rewrite resume_uploading. rewrite Hin in Hflag, Hone.
    rewrite filter_app, length_app in *. simpl in *.
    destruct p as [fileName file | imageId]; simpl in *.
    + assert (Hzero : List.length (filter is_upload before)
                      + List.length (filter is_upload after) = 0) by lia.
      rewrite Hzero. split; [reflexivity | lia].
    + now split.
Qed.

(** X9. When uploads do not overlap (files are handed over only while no
    upload is outstanding, at most one image at a time; deletes and
    drag events as they come), the [uploading] flag is exact: it is true
    exactly when an upload is outstanding. *)
Theorem flag_exact_when_uploads_do_not_overlap (evs : list Event) :
  uploads_apart env evs mounted = true ->
  uploading (ui (run env evs mounted)) = upload_outstanding (run env evs mounted).
Proof.
  cut (forall sys,
         uploading (ui sys) = upload_outstanding sys ->
         List.length (filter is_upload (inflight sys)) <= 1 ->
         uploads_apart env evs sys = true ->
         uploading (ui (run env evs sys)) = upload_outstanding (run env evs sys)).
  { intros H. apply H; [reflexivity | simpl; lia]. }
  unfold run. induction evs as [| ev evs IH]; intros sys Hflag Hone Hapart; simpl in *.
  - exact Hflag.
  - apply andb_true_iff in Hapart. destruct Hapart as [Hguard Hrest].
    destruct (step_keeps_flag_exact sys ev Hflag Hone Hguard) as [Hflag' Hone'].
    now apply IH.
Qed.

End Runs.

(** *** On the sample data *)

Lemma failed_upload_is_dropped_witness :
  succeeded (Rejected not_found) = false /\
  exists s' e,
    uploadImage_resume sample_env cat_key cat_png (Rejected not_found) (ui two_uploaded)
      = (Normal tt, s') /\
    (Rejected not_found = failed e \/ @Rejected Response not_found = Rejected e) /\
    uploadedImages s' = uploadedImages (ui two_uploaded) /\
    toasts s' = upload_failed :: toasts (ui two_uploaded) /\
    console s' = ("Upload error:"%string, e) :: console (ui two_uploaded) /\
    uploading s' = false /\
    requests s' = requests (ui two_uploaded).
Proof.
  split; [reflexivity |].
  apply (failed_upload_is_dropped sample_env cat_key cat_png (Rejected not_found)
           (ui two_uploaded)).
  reflexivity.
Defined.

Lemma owl_not_listed :
  forall img, In img (uploadedImages (ui two_uploaded)) -> id img <> owl_key.
Proof.
  intros img Hin. vm_compute in Hin. destruct Hin as [<- | [<- | []]]; discriminate.
Defined.

Lemma upload_then_delete_restores_gallery_witness :
  (forall img, In img (uploadedImages (ui two_uploaded)) -> id img <> owl_key) /\
  uploadedImages
    (snd (removeImage_resume owl_key ok
            (snd (uploadImage_resume sample_env owl_key owl_gif ok (ui two_uploaded)))))
  = uploadedImages (ui two_uploaded).
Proof.
  split; [exact owl_not_listed |].
  apply (upload_then_delete_restores_gallery sample_env owl_key owl_gif (ui two_uploaded)).
  exact owl_not_listed.
Defined.

Lemma dog_first_no_delete :
  no_delete_succeeded (settled (run sample_env dog_first mounted)).
Proof.
  intros imageId r Hin. vm_compute in Hin.
  destruct Hin as [H | [H | []]]; discriminate H.
Defined.

Lemma gallery_in_completion_order_witness :
  no_delete_succeeded (settled (run sample_env dog_first mounted)) /\
  gallery (run sample_env dog_first mounted)
  = completed_uploads sample_env (settled (run sample_env dog_first mounted)).
Proof.
  split; [exact dog_first_no_delete |].
  apply (gallery_in_completion_order sample_env dog_first). exact dog_first_no_delete.
Defined.

Lemma flag_exact_when_uploads_do_not_overlap_witness :
  uploads_apart sample_env one_by_one mounted = true /\
  uploading (ui (run sample_env one_by_one mounted))
  = upload_outstanding (run sample_env one_by_one mounted).
Proof.
  split; [vm_compute; reflexivity |].
  apply (flag_exact_when_uploads_do_not_overlap sample_env one_by_one).
  vm_compute. reflexivity.
Defined.

Lemma uploading_implies_outstanding_witness :
  uploading (ui (run sample_env [Drop [cat_png; dog_jpg]] mounted)) = true /\
  upload_outstanding (run sample_env [Drop [cat_png; dog_jpg]] mounted) = true.
Proof.
  split; [vm_compute; reflexivity |].
  apply (uploading_implies_outstanding sample_env [Drop [cat_png; dog_jpg]]).
  vm_compute. reflexivity.
Defined.

End ImageUploadLoop.

(** ** Further properties of the session gate *)
Module IndexLoop.
Import Index.

(** Induction over the page's event loop. *)
Lemma page_run_invariant (P : State -> Prop) :
  (forall s ev, P s -> P (step s ev)) ->
  forall evs s, P s -> P (run evs s).
Proof.
  intros Hstep. unfold run. induction evs as [| ev evs IH]; intros s HP; simpl.
  - exact HP.
  - apply IH. now apply Hstep.
Qed.

Lemma step_user s ev :
  user (step s ev) = match observed ev with Some o => user_of o | None => user s end.
Proof.
  destruct ev as [[[session |] | e] | [session |] | | [[[e |]] | e]]; reflexivity.
Qed.

Lemma step_loading s ev :
  loading (step s ev) = loading s && negb (checked [ev]).
Proof.
  destruct ev as [[[session |] | e] | [session |] | | [[[e |]] | e]]; simpl;
    rewrite ?andb_true_r, ?andb_false_r; reflexivity.
Qed.

Lemma run_user evs : forall s seen,
  user s = user_seen seen -> user (run evs s) = user_seen (latest evs seen).
Proof.
  unfold run, latest. induction evs as [| ev evs IH]; intros s seen Hs; simpl.
  - exact Hs.
  - apply IH. rewrite step_user. destruct (observed ev); [reflexivity | exact Hs].
Qed.

Lemma run_loading evs : forall s,
  loading (run evs s) = loading s && negb (checked evs).
Proof.
  unfold run. induction evs as [| ev evs IH]; intros s.
  - simpl. now rewrite andb_true_r.
  - cbn [fold_left]. rewrite IH, step_loading. unfold checked. simpl.
    rewrite orb_false_r, negb_orb. now rewrite andb_assoc.
Qed.

(** X12. The first answer of [getSession()].  With a session the page holds
    its user, stops loading and shows the upload panel, without
    navigating; without one it holds no user, asks for the "/auth" route
    and renders nothing, so the upload panel does not appear.  Neither
    shows a notification. *)
Theorem session_check_outcomes (s : State) :
  (forall session, exists s',
     checkUser_resume (Fulfilled (Some session)) s = (Normal tt, s') /\
     user s' = Some (session_user session) /\
     loading s' = false /\
     navigations s' = navigations s /\
     toasts s' = toasts s /\
     render s' = UploadPanel) /\
  (exists s',
     checkUser_resume (Fulfilled None) s = (Normal tt, s') /\
     user s' = None /\
     loading s' = false /\
     navigations s' = "/auth"%string :: navigations s /\
     toasts s' = toasts s /\
     render s' = Blank).
Proof.
  split.
  - intros session. eexists. split; [reflexivity |]. repeat split.
  - eexists. split; [reflexivity |]. repeat split.
Qed.

(** X13. After any run the page holds the user of the session it saw last
    (from [getSession()] or from the auth listener), it is loading
    exactly as long as [getSession()] has not answered, and so it shows
    the upload panel exactly when [getSession()] has answered and the
    session seen last is present.  Sign-out clicks and their answers
    change none of this. *)
Theorem page_reflects_latest_session (evs : list Event) :
  let s := run evs mounted in
  user s = user_seen (latest evs None) /\
  loading s = negb (checked evs) /\
  (render s = UploadPanel <->
   checked evs = true /\ exists session, latest evs None = Some (Some session)).
Proof.
  intros s. subst s.
  assert (Hu := run_user evs mounted None eq_refl).
  assert (Hl := run_loading evs mounted). simpl in Hl.
  split; [exact Hu |]. split; [exact Hl |].
  unfold render. rewrite Hl, Hu.
  destruct (checked evs); simpl.
  - destruct (latest evs None) as [[session |] |]; simpl; split;
      try discriminate; try (intros [_ [x Hx]]; discriminate Hx).
    + intros _. split; [reflexivity | now exists session].
    + reflexivity.
  - split; [discriminate | intros [H _]; discriminate H].
Qed.

(** X14. As long as [getSession()] has not answered (it is still pending, or
    its promise was rejected, which [checkUser] does not catch), the
    page shows the loading screen, whatever the auth listener
    reports. *)
Theorem loading_until_session_check_answers (evs : list Event) :
  checked evs = false -> render (run evs mounted) = LoadingScreen.
Proof.
  intros Hc. unfold render. rewrite run_loading, Hc. reflexivity.
Qed.

Lemma step_navigations s ev :
  navigations (step s ev) = repeat "/auth"%string (absences [ev]) ++ navigations s.
Proof.
  destruct ev as [[[session |] | e] | [session |] | | [[[e |]] | e]]; reflexivity.
Qed.

(** X15. The page navigates to "/auth" and nowhere else, once for each time
    it sees that there is no session. *)
Theorem navigations_are_redirects (evs : list Event) :
  navigations (run evs mounted) = repeat "/auth"%string (absences evs).
Proof.
  cut (forall s, navigations (run evs s)
                 = repeat "/auth"%string (absences evs) ++ navigations s).
  { intros H. rewrite H. simpl. apply app_nil_r. }
  unfold run. induction evs as [| ev evs IH]; intros s; [reflexivity |].
  cbn [fold_left]. rewrite IH, step_navigations.
  unfold absences. cbn [filter].
  destruct (match observed ev with Some None => true | _ => false end); simpl.
  - change ("/auth"%string :: navigations s)
      with (["/auth"%string] ++ navigations s).
    rewrite app_assoc, <- repeat_cons. reflexivity.
  - reflexivity.
Qed.

(** X16. Whenever the page renders nothing, it has asked for the "/auth"
    route. *)
Theorem blank_page_has_redirected (evs : list Event) :
  render (run evs mounted) = Blank ->
  In "/auth"%string (navigations (run evs mounted)).
Proof.
  cut (user (run evs mounted) = None /\ loading (run evs mounted) = false ->
       In "/auth"%string (navigations (run evs mounted))).
  { intros H Hr. apply H. unfold render in Hr.
    destruct (loading (run evs mounted)); [discriminate Hr |].
    destruct (user (run evs mounted)); [discriminate Hr | now split]. }
  apply (page_run_invariant
           (fun s => user s = None /\ loading s = false ->
                     In "/auth"%string (navigations s))).
  - intros s ev IH.
    destruct ev as [[[session |] | e] | [session |] | | [[[e |]] | e]]; simpl;
      try exact IH; try (intros [Hu _]; discriminate Hu); intros _; now left.
  - intros [_ Hl]. discriminate Hl.
Qed.

(** X17. Sign-out is called once per click and never again on its own, and
    the only notifications of the page are the answers to sign-out
    calls, one each.  A rejected [signOut()] promise, which
    [handleSignOut] does not catch, shows nothing. *)
Theorem sign_out_only_on_click (evs : list Event) :
  auth_calls (run evs mounted) = repeat signOut (sign_out_clicks evs) ++ [getSession] /\
  List.length (toasts (run evs mounted)) = sign_outs_answered evs.
Proof.
  cut (forall s,
         auth_calls (run evs s) = repeat signOut (sign_out_clicks evs) ++ auth_calls s /\
         List.length (toasts (run evs s))
         = sign_outs_answered evs + List.length (toasts s)).
  { intros H. destruct (H mounted) as [Ha Ht]. split; [exact Ha |].
    rewrite Ht. simpl. lia. }
  unfold run. induction evs as [| ev evs IH]; intros s; [split; reflexivity |].
  cbn [fold_left]. destruct (IH (step s ev)) as [Ha Ht]. rewrite Ha, Ht.
  unfold sign_out_clicks, sign_outs_answered. cbn [filter].
  destruct ev as [[[session |] | e] | [session |] | | [[[e |]] | e]]; simpl;
    split; try reflexivity; try lia.
  change (signOut :: auth_calls s) with ([signOut] ++ auth_calls s).
  rewrite app_assoc, <- repeat_cons. reflexivity.
Qed.

(** *** On sample data *)

Lemma loading_until_session_check_answers_witness :
  checked [SessionChecked (Rejected offline); AuthStateChanged (Some alice)] = false /\
  render (run [SessionChecked (Rejected offline); AuthStateChanged (Some alice)] mounted)
  = LoadingScreen.
Proof.
  split; [reflexivity |].
  apply (loading_until_session_check_answers
           [SessionChecked (Rejected offline); AuthStateChanged (Some alice)]).
  reflexivity.
Defined.

Lemma blank_page_has_redirected_witness :
  render (run [SessionChecked (Fulfilled (Some alice)); AuthStateChanged None] mounted)
  = Blank /\
  In "/auth"%string
     (navigations
        (run [SessionChecked (Fulfilled (Some alice)); AuthStateChanged None] mounted)).
Proof.
  split; [reflexivity |].
  apply (blank_page_has_redirected
           [SessionChecked (Fulfilled (Some alice)); AuthStateChanged None]).
  reflexivity.
Defined.

End IndexLoop.

(** ** Where the upload panel departs from what is asked of it *)
Module ImageUploadDefects.
Import ImageUpload ImageUploadSpec.

(** C6, evaluated.  Two image files of the same name are dropped in the
    same millisecond and so share one key.  The first upload succeeds
    and its card is listed; its delete button is clicked and the delete
    succeeds; then the provider, the object being gone, accepts the
    second upload under the same key.  The gallery now lists an entry
    with that key, although a delete of that key has succeeded. *)
Theorem deleted_key_reappears :
  let at_click := run sample_env [Drop [cat_png; cat_png]; Settles 0 ok] mounted in
  let sys := run sample_env collision_events mounted in
  listed at_click cat_key = true /\
  In (AwaitRemove cat_key, ok) (settled sys) /\
  succeeded ok = true /\
  gallery sys = [entry_of sample_env cat_key cat_png] /\
  id (entry_of sample_env cat_key cat_png) = cat_key /\
  inflight sys = [].
Proof.
  vm_compute. repeat split. right. left. reflexivity.
Qed.

Section CollisionFree.

Variable env : Env.

(** Induction over the runs in which every delete click is on a card. *)
Lemma carded_run_invariant (P : Sys -> Prop) :
  (forall sys file, P sys -> P (call (uploadImage env file) sys)) ->
  (forall sys b, P sys -> P (exec (setIsDragging b) sys)) ->
  (forall sys imageId,
     listed sys imageId = true -> P sys -> P (call (removeImage imageId) sys)) ->
  (forall sys n r, P sys -> P (settle env n r sys)) ->
  forall evs sys, clicks_on_cards env evs sys = true -> P sys -> P (run env evs sys).
Proof.
  intros Hup Hdrag Hrm Hset.
  assert (Hfor : forall files sys, P sys -> P (forEach_uploadImage env files sys)).
  { unfold forEach_uploadImage. induction files as [| f files IH]; intros sys HP; simpl.
    - exact HP.
    - apply IH. now apply Hup. }
  unfold run. induction evs as [| ev evs IH]; intros sys Hcards HP; simpl in *;
    [exact HP |].
  apply andb_true_iff in Hcards. destruct Hcards as [Hcard Hrest].
  apply IH; [exact Hrest |]. destruct ev; simpl in *.
  - apply Hfor. now apply Hdrag.
  - now apply Hdrag.
  - now apply Hdrag.
  - now apply Hfor.
  - now apply Hrm.
  - now apply Hset.
Qed.

Lemma listed_in sys imageId :
  listed sys imageId = true -> In imageId (gallery_ids sys).
Proof.
  unfold listed. intros H. apply existsb_exists in H.
  destruct H as [k [Hin Heq]]. apply String.eqb_eq in Heq. now subst k.
Qed.

Lemma pending_keys_in sys fileName file :
  In (AwaitUpload fileName file) (inflight sys) -> In fileName (pending_keys sys).
Proof.
  intros Hin. unfold pending_keys. apply in_flat_map.
  exists (AwaitUpload fileName file). split; [exact Hin | now left].
Qed.

Lemma keys_kept_apart_step_upload sys file :
  (NoDup (issued_keys sys) -> keys_kept_apart sys) ->
  NoDup (issued_keys (call (uploadImage env file) sys)) ->
  keys_kept_apart (call (uploadImage env file) sys).
Proof.
  intros IH.
  destruct (call_uploadImage_cases env file sys) as [[_ ->] | [_ ->]].
  - exact IH.
  - unfold issued_keys at 1. simpl. intros Hnodup.
    inversion Hnodup as [| k' rest Hfresh Hold]; subst.
    destruct (IH Hold) as (Hcount & Hdel & Hgal).
    unfold keys_kept_apart, gallery_ids, gallery, pending_keys, issued_keys,
      delete_requested in *; simpl in *.
    split; [| split].
    + intros k. specialize (Hcount k).
      rewrite flat_map_app, count_occ_app. simpl.
      destruct (string_dec _ k); lia.
    + intros k Hreq.
      assert (Hreq' : In (AwaitRemove k) (inflight sys) \/
                      exists r, In (AwaitRemove k, r) (settled sys)).
      { destruct Hreq as [Hin | Hs]; [| now right].
        apply in_app_or in Hin. destruct Hin as [Hin | [Hin | []]];
          [now left | discriminate Hin]. }
      destruct (Hdel k Hreq') as [Hk Hnot]. split; [now right |].
      rewrite flat_map_app. intros Hin. apply in_app_or in Hin.
      destruct Hin as [Hin | [Hin | []]]; [now apply Hnot |].
      apply Hfresh. now rewrite Hin.
    + exact Hgal.
Qed.

Lemma keys_kept_apart_step_remove sys imageId :
  listed sys imageId = true ->
  (NoDup (issued_keys sys) -> keys_kept_apart sys) ->
  NoDup (issued_keys (call (removeImage imageId) sys)) ->
  keys_kept_apart (call (removeImage imageId) sys).
Proof.
  intros Hlisted IH Hnodup.
  assert (Hold : NoDup (issued_keys sys)) by exact Hnodup.
  destruct (IH Hold) as (Hcount & Hdel & Hgal).
  apply listed_in in Hlisted.
  unfold keys_kept_apart, gallery_ids, gallery, pending_keys, issued_keys,
    delete_requested in *; simpl in *.
  split; [| split].
  - intros k. specialize (Hcount k).
    rewrite flat_map_app, count_occ_app. simpl. lia.
  - intros k Hreq. rewrite flat_map_app. simpl. rewrite app_nil_r.
    destruct Hreq as [Hin | Hs]; [| apply Hdel; now right].
    apply in_app_or in Hin. destruct Hin as [Hin | [Hin | []]];
      [apply Hdel; now left |].
    injection Hin as <-.
    specialize (Hcount imageId).
    apply (count_occ_In string_dec) in Hlisted.
    pose proof (proj1 (NoDup_count_occ string_dec _) Hold imageId) as Hone.
    split.
    + apply (count_occ_In string_dec). lia.
    + apply (count_occ_not_In string_dec). lia.
  - exact Hgal.
Qed.

Lemma keys_kept_apart_step_settle sys n r :
  (NoDup (issued_keys sys) -> keys_kept_apart sys) ->
  NoDup (issued_keys (settle env n r sys)) ->
  keys_kept_apart (settle env n r sys).
Proof.
  intros IH.
  destruct (settle_cases env n r sys) as [-> | (p & before & after & Hin & ->)];
    [exact IH |].
  unfold issued_keys at 1. simpl.
  rewrite (proj1 (resume_requests env p r (ui sys))). intros Hold.
  destruct (IH Hold) as (Hcount & Hdel & Hgal).
  assert (Hp : In p (inflight sys)).
  { rewrite Hin. apply in_or_app. right. now left. }
  assert (Hsub : forall q, In q (before ++ after) -> In q (inflight sys)).
  { intros q Hq. rewrite Hin. apply in_app_or in Hq. apply in_or_app.
    destruct Hq as [Hq | Hq]; [now left | right; now right]. }
  unfold keys_kept_apart. split; [| split].
  - intros k. specialize (Hcount k).
    unfold gallery_ids, gallery, pending_keys, issued_keys in *. simpl.
    rewrite resume_gallery, (proj1 (resume_requests env p r (ui sys))).
    rewrite Hin in Hcount. rewrite flat_map_app, count_occ_app in *. simpl in Hcount.
    rewrite count_occ_app in Hcount.
    destruct p as [fileName file | imageId]; destruct (succeeded r); simpl in *;
      try destruct (string_dec fileName k); try lia.
    pose proof (count_ids_filter_le imageId (uploadedImages (ui sys)) k). lia.
  - intros k Hreq.
    assert (Hreq' : delete_requested sys k).
    { unfold delete_requested in *. simpl in Hreq.
      destruct Hreq as [Hq | [r' [Hq | Hq]]].
      - left. now apply Hsub.
      - injection Hq as -> _. now left.
      - right. now exists r'. }
    destruct (Hdel k Hreq') as [Hk Hnot].
    unfold issued_keys, pending_keys in *. simpl.
    rewrite (proj1 (resume_requests env p r (ui sys))). split; [exact Hk |].
    intros Hpk. apply Hnot. apply in_flat_map in Hpk.
    destruct Hpk as [q [Hq Hkq]]. apply in_flat_map. exists q. split; [now apply Hsub | exact Hkq].
  - unfold gallery. simpl. rewrite resume_gallery.
    intros img r' Himg Hlog.
    destruct p as [fileName file | imageId]; destruct (succeeded r) eqn:Hs.
    + destruct Hlog as [Hlog | Hlog]; [discriminate Hlog |].
      destruct Himg as [<- | Himg]; [| now apply (Hgal img r')].
      exfalso. simpl in Hlog.
      destruct (Hdel fileName) as [_ Hnot]; [right; now exists r' |].
      apply Hnot. now apply (pending_keys_in sys fileName file).
    + destruct Hlog as [Hlog | Hlog]; [discriminate Hlog | now apply (Hgal img r')].
    + apply filter_other_than_in in Himg. destruct Himg as [Himg Hne].
      destruct Hlog as [Hlog | Hlog]; [| now apply (Hgal img r')].
      injection Hlog as Hk _. now symmetry in Hk.
    + destruct Hlog as [Hlog | Hlog]; [| now apply (Hgal img r')].
      injection Hlog as _ <-. exact Hs.
Qed.

(** X21. In a run where every delete click is on a card the gallery
    shows and the keys handed to the provider are pairwise distinct, no
    gallery entry has a successful delete of its id anywhere in the log
    of the provider's answers, whether before or after its upload. *)
Theorem no_deleted_entry_when_keys_distinct (evs : list Event) :
  clicks_on_cards env evs mounted = true ->
  NoDup (issued_keys (run env evs mounted)) ->
  forall img, In img (gallery (run env evs mounted)) ->
  ~ exists r, In (AwaitRemove (id img), r) (settled (run env evs mounted)) /\
              succeeded r = true.
Proof.
  intros Hcards Hnodup img Himg [r [Hlog Hs]].
  assert (Hinv : NoDup (issued_keys (run env evs mounted)) ->
                 keys_kept_apart (run env evs mounted)).
  { apply (carded_run_invariant
             (fun sys => NoDup (issued_keys sys) -> keys_kept_apart sys)).
    - intros sys file. apply keys_kept_apart_step_upload.
    - intros sys b IH. exact IH.
    - intros sys imageId. apply keys_kept_apart_step_remove.
    - intros sys n r0. apply keys_kept_apart_step_settle.
    - exact Hcards.
    - intros _. unfold keys_kept_apart, delete_requested. simpl.
      split; [intros k; lia |]. split; [| intros ? ? []].
      intros k [[] | [r0 []]]. }
  destruct (Hinv Hnodup) as (_ & _ & Hgal).
  rewrite (Hgal img r Himg Hlog) in Hs. discriminate Hs.
Qed.

End CollisionFree.

Lemma sample_events_keys_distinct :
  NoDup (issued_keys (run sample_env sample_events mounted)).
Proof.
  vm_compute. repeat constructor; simpl; intros H;
    repeat (destruct H as [H | H]; [discriminate H |]); exact H.
Defined.

Lemma no_deleted_entry_when_keys_distinct_witness :
  clicks_on_cards sample_env sample_events mounted = true /\
  NoDup (issued_keys (run sample_env sample_events mounted)) /\
  In dog_entry (gallery (run sample_env sample_events mounted)) /\
  ~ exists r, In (AwaitRemove (id dog_entry), r)
                 (settled (run sample_env sample_events mounted)) /\
              succeeded r = true.
Proof.
  split; [vm_compute; reflexivity |].
  split; [exact sample_events_keys_distinct |].
  split; [exact dog_still_listed |].
  apply (no_deleted_entry_when_keys_distinct sample_env sample_events).
  - vm_compute. reflexivity.
  - exact sample_events_keys_distinct.
  - exact dog_still_listed.
Defined.

End ImageUploadDefects.

(** ** Where the session gate departs from what is asked of it *)
Module IndexDefects.
Import Index.

(** C9, evaluated.  When the promise of [signOut()] is rejected, with
    whatever message, [handleSignOut] throws at its [await], which no
    [try] encloses: no notification is shown, the error message reaches
    nobody, and the state of the page is untouched.  The upload panel's
    [removeImage], given the same rejection, catches it and shows its
    notification. *)
Theorem rejected_sign_out_shows_nothing (e : JsError) (s : State) :
  handleSignOut_resume (Rejected e) s = (Throw e, s) /\
  toasts (snd (handleSignOut_resume (Rejected e) s)) = toasts s /\
  user (snd (handleSignOut_resume (Rejected e) s)) = user s /\
  forall imageId s2,
    ImageUpload.removeImage_resume imageId (Rejected e) s2
    = (Normal tt,
       snd (ImageUpload.toast ImageUpload.delete_failed
              (snd (ImageUpload.console_error "Delete error:" e s2)))).
Proof.
  repeat split.
Qed.

End IndexDefects.
